(** * sf-flow-parser: normalisation, canonical ordering and node graph

    A shallow embedding of [src/lib/constants.ts], [src/lib/helper.ts],
    [src/lib/nodes.ts] and the [parse] function of [src/lib/flow.ts].

    The library is duck-typed JavaScript: it probes plain data with
    [obj[prop]], [Array.isArray], [typeof] and truthiness tests and mutates
    it in place.  The embedding therefore works on an explicit type of
    JavaScript values, and every function that mutates its argument returns
    the argument's new state.  Runtime exceptions are modelled by an error
    monad.  A document is a tree, as the codec produces it: no object is
    reachable along two paths.

    The development proves what [ensureArray] does to a field, that
    normalisation establishes the sequence invariant up to the recursive
    marker and is idempotent, that the recursive step itself never applies,
    how the ordering functions sort and what they leave alone, the order
    of [getConnectors], the effect of [reparentNode], and the errors of
    [parse]. *)

From Stdlib Require Import String Ascii List ZArith Bool Lia Arith.
From Stdlib Require Import Permutation Sorted DecimalString OrderedTypeEx.
Import ListNotations.

Set Warnings "-register-all".

Local Open Scope string_scope.
Local Open Scope list_scope.

(* ================================================================== *)
(** * The JavaScript fragment the library runs on                      *)
(* ================================================================== *)

Module Js.

(** Plain data as the XML codec produces it and as callers build it.
    Own properties are kept as an association list in insertion order
    (the order [Object.entries], the spread operator and the serialiser
    observe).  An array carries its elements and, as every JavaScript
    object does, possibly named own properties beside them.  Numbers are
    abstracted to integers and [NaN]: the library only ever tests a number
    for being zero or positive. *)
Inductive value : Type :=
| VUndef
| VNull
| VBool (b : bool)
| VNum (z : Z)
| VNaN
| VStr (s : string)
| VArr (elems : list value) (own : list (string * value))
| VObj (own : list (string * value)).

Definition props := list (string * value).

(** What a [throw] carries.  [JsError] is [new Error(message)],
    [TypeError] the engine's own error.  The last two are not JavaScript
    exceptions: [Unmodelled] marks an implicit coercion the embedding does
    not cover, [OutOfFuel] an exhausted recursion budget. *)
Inductive exn : Type :=
| JsError (message : string)
| TypeError (message : string)
| Unmodelled
| OutOfFuel.

Inductive result (A : Type) : Type :=
| Ok (a : A)
| Error (e : exn).
Arguments Ok {A} a.
Arguments Error {A} e.

Definition bind {A B} (m : result A) (k : A -> result B) : result B :=
  match m with
  | Ok a => k a
  | Error e => Error e
  end.

Definition isOk {A} (m : result A) : bool :=
  match m with Ok _ => true | Error _ => false end.

(** [ToBoolean]. *)
Definition truthy (v : value) : bool :=
  match v with
  | VUndef | VNull | VNaN => false
  | VBool b => b
  | VNum z => negb (z =? 0)%Z
  | VStr s => negb (s =? "")
  | VArr _ _ | VObj _ => true
  end.

(** [Array.isArray]. *)
Definition isArray (v : value) : bool :=
  match v with VArr _ _ => true | _ => false end.

(** [typeof v === "object"]; note that [typeof null] is ["object"]. *)
Definition typeof_object (v : value) : bool :=
  match v with VNull | VArr _ _ | VObj _ => true | _ => false end.

(** [v === undefined]. *)
Definition isUndefined (v : value) : bool :=
  match v with VUndef => true | _ => false end.

(** [v === s] for a string [s]: strict equality, no coercion. *)
Definition strictEqStr (v : value) (s : string) : bool :=
  match v with VStr s' => s' =? s | _ => false end.

Fixpoint lookup (k : string) (ps : props) : value :=
  match ps with
  | [] => VUndef
  | (k', v) :: ps' => if k =? k' then v else lookup k ps'
  end.

(** Assignment to an own property: an existing key keeps its place, a new
    key goes last. *)
Fixpoint update (k : string) (v : value) (ps : props) : props :=
  match ps with
  | [] => [(k, v)]
  | (k', v') :: ps' =>
      if k =? k' then (k, v) :: ps' else (k', v') :: update k v ps'
  end.

Definition string_of_Z (z : Z) : string :=
  NilZero.string_of_int (Z.to_int z).

Definition describe (v : value) : string :=
  match v with
  | VStr s => "string '" ++ s ++ "'"
  | VBool true => "boolean 'true'"
  | VBool false => "boolean 'false'"
  | VNum z => "number '" ++ string_of_Z z ++ "'"
  | VNaN => "number 'NaN'"
  | VUndef => "undefined"
  | VNull => "null"
  | VArr _ _ | VObj _ => "object"
  end.

(** [v[k]] for a property name [k] other than an array index.  Reading
    from [null] or [undefined] throws; a primitive has no own property but
    a string's [length]; none of the names the library reads is found on a
    prototype. *)
Definition get_prop (v : value) (k : string) : result value :=
  match v with
  | VUndef | VNull =>
      Error (TypeError ("Cannot read properties of " ++ describe v
                        ++ " (reading '" ++ k ++ "')"))
  | VObj ps => Ok (lookup k ps)
  | VArr es ps =>
      Ok (if k =? "length" then VNum (Z.of_nat (List.length es))
          else lookup k ps)
  | VStr s =>
      Ok (if k =? "length" then VNum (Z.of_nat (String.length s))
          else VUndef)
  | VBool _ | VNum _ | VNaN => Ok VUndef
  end.

(** [v[k] = x], returning [v]'s new state.  The library is an ES module,
    hence strict code: assigning to a property of a primitive throws.
    Assigning to an array's [length] resizes the array and is not
    covered. *)
Definition set_prop (v : value) (k : string) (x : value) : result value :=
  match v with
  | VObj ps => Ok (VObj (update k x ps))
  | VArr es ps =>
      if k =? "length" then Error Unmodelled
      else Ok (VArr es (update k x ps))
  | VUndef | VNull =>
      Error (TypeError ("Cannot set properties of " ++ describe v
                        ++ " (setting '" ++ k ++ "')"))
  | VBool _ | VNum _ | VNaN | VStr _ =>
      Error (TypeError ("Cannot create property '" ++ k ++ "' on "
                        ++ describe v))
  end.

(** [v > 0] where [v] is a number or coerces to one without parsing
    text. *)
Definition gt_zero (v : value) : result bool :=
  match v with
  | VNum z => Ok (0 <? z)%Z
  | VBool b => Ok b
  | VUndef | VNull | VNaN => Ok false
  | VStr _ | VArr _ _ | VObj _ => Error Unmodelled
  end.

(** The elements of an array; nothing for any other value. *)
Definition elements (v : value) : list value :=
  match v with VArr es _ => es | _ => [] end.

(** [Array.prototype.forEach] with a callback that mutates a state. *)
Fixpoint forEach {A S : Type} (f : S -> A -> result S) (l : list A) (s : S)
  : result S :=
  match l with
  | [] => Ok s
  | a :: l' => bind (f s a) (forEach f l')
  end.

(** [Array.prototype.map] with a callback that may throw. *)
Fixpoint mapM {A B : Type} (f : A -> result B) (l : list A)
  : result (list B) :=
  match l with
  | [] => Ok []
  | a :: l' =>
      bind (f a) (fun b => bind (mapM f l') (fun bs => Ok (b :: bs)))
  end.

End Js.

Export Js.

Notation "x <- m ;; k" := (bind m (fun x => k))
  (at level 61, m at next level, right associativity).

(* ================================================================== *)
(** * [constants.ts] and [types.ts]                                    *)
(* ================================================================== *)

(** [NestedArrayConfig]: an absent [nestedConfig] is the empty list, an
    absent [recursive] is [None]. *)
Inductive NestedArrayConfig : Type :=
  mkConfig {
    childArrays : list string;
    nestedConfig : list (string * NestedArrayConfig);
    recursive : option string
  }.

Definition leaf (cs : list string) : NestedArrayConfig := mkConfig cs [] None.

Definition FLOW_ARRAY_NODES : list string :=
  [ "decisions"; "actionCalls"; "apexPluginCalls"; "assignments";
    "collectionProcessors"; "customErrors"; "loops"; "recordCreates";
    "recordDeletes"; "recordLookups"; "recordRollbacks"; "recordUpdates";
    "screens"; "subflows"; "transforms"; "waits"; "orchestratedStages" ].

Definition FLOW_ARRAY_PROPERTIES : list string :=
  FLOW_ARRAY_NODES ++
  [ "choices"; "constants"; "dynamicChoiceSets"; "environments"; "formulas";
    "processMetadataValues"; "stages"; "steps"; "textTemplates";
    "variables" ].

Definition NESTED_ARRAY_CONFIG : list (string * NestedArrayConfig) :=
  [ ("decisions",
     mkConfig ["rules"] [("rules", leaf ["conditions"])] None);
    ("screens",
     mkConfig ["fields"; "actions"; "rules"; "triggers"]
       [ ("rules", leaf ["conditions"; "ruleActions"]);
         ("triggers", leaf ["handlers"]);
         ("fields",
          mkConfig
            ["fields"; "choiceReferences"; "inputParameters";
             "outputParameters"; "dataTypeMappings"]
            [] (Some "fields")) ]
       None);
    ("recordLookups", leaf ["filters"; "outputAssignments"; "queriedFields"]);
    ("recordCreates", leaf ["inputAssignments"]);
    ("recordUpdates", leaf ["filters"; "inputAssignments"]);
    ("recordDeletes", leaf ["filters"]);
    ("assignments", leaf ["assignmentItems"]);
    ("actionCalls",
     leaf ["inputParameters"; "outputParameters"; "dataTypeMappings"]);
    ("apexPluginCalls", leaf ["inputParameters"; "outputParameters"]);
    ("subflows", leaf ["inputAssignments"; "outputAssignments"]);
    ("waits",
     mkConfig ["waitEvents"]
       [ ("waitEvents",
          leaf ["conditions"; "filters"; "inputParameters";
                "outputParameters"]) ]
       None);
    ("transforms",
     mkConfig ["transformValues"]
       [ ("transformValues",
          mkConfig ["transformValueActions"]
            [("transformValueActions", leaf ["inputParameters"])] None) ]
       None);
    ("orchestratedStages",
     mkConfig
       ["stageSteps"; "exitConditions"; "exitActionInputParameters";
        "exitActionOutputParameters"]
       [ ("stageSteps",
          leaf ["assignees"; "entryConditions"; "exitConditions";
                "inputParameters"; "outputParameters";
                "entryActionInputParameters"; "entryActionOutputParameters";
                "exitActionInputParameters"; "exitActionOutputParameters"]) ]
       None);
    ("start",
     mkConfig ["filters"; "scheduledPaths"; "capabilityTypes"]
       [("capabilityTypes", leaf ["inputs"])] None);
    ("dynamicChoiceSets", leaf ["filters"; "outputAssignments"]);
    ("collectionProcessors", leaf ["conditions"; "mapItems"; "sortOptions"]);
    ("customErrors", leaf ["customErrorMessages"]) ].

Definition NESTED_SORT_CONFIG : list (string * list string) :=
  [ ("decisions", ["rules"]); ("screens", ["fields"; "actions"]) ].

(* ================================================================== *)
(** * [helper.ts]: normalisation                                       *)
(* ================================================================== *)

(** [ensureArray(obj, propertyName)]: the state of [obj] afterwards. *)
Definition ensureArray (obj : value) (propertyName : string) : result value :=
  v <- get_prop obj propertyName ;;
  if truthy v && negb (isArray v) then
    set_prop obj propertyName (VArr [v] [])
  else if negb (truthy v) then
    set_prop obj propertyName (VArr [] [])
  else Ok obj.

(** The synthetic context of the recursive step,
    [{ [prop]: [{ [r]: x }] }]. *)
Definition tempObj (prop r : string) (x : value) : value :=
  VObj [(prop, VArr [VObj [(r, x)]] [])].

(** The nested value [x] is shared between the item and the synthetic
    context: whatever [processNestedArrays] did to it in place shows in the
    item.  [readBack] finds [x]'s new state in the context's new state [t]:
    under [t[prop][0][r]], or one level down when [ensureArray] wrapped a
    non-array [x] into a fresh one-element array.  A primitive cannot have
    been mutated. *)
Definition readBack (prop r : string) (x t : value) : value :=
  let wrapper :=
    nth 0 (match t with VObj ps => elements (lookup prop ps) | _ => [] end)
        VUndef in
  let v := match wrapper with VObj ps => lookup r ps | _ => VUndef end in
  match x with
  | VArr _ _ => v
  | VObj _ => if isArray v then nth 0 (elements v) x else v
  | _ => x
  end.

Section Normalisation.

(** [processPropertyArrays] and [processNestedArrays] call each other; the
    call back into [processNestedArrays] is this parameter. *)
Variable processNestedArrays_rec : value -> result value.

(** Lines 121-130 of [helper.ts]: the recursive step on one [item], for a
    configuration whose [recursive] is [r]. *)
Definition reprocess (prop r : string) (item : value) : result value :=
  if r =? "" then Ok item else
  x <- get_prop item r ;;
  if truthy x then
    len <- get_prop x "length" ;;
    positive <- gt_zero len ;;
    if positive then
      t <- processNestedArrays_rec (tempObj prop r x) ;;
      match x with
      | VArr _ _ | VObj _ => set_prop item r (readBack prop r x t)
      | _ => Ok item
      end
    else Ok item
  else Ok item.

(** [processPropertyArrays(obj, prop, config)]: the state of [obj]
    afterwards. *)
Fixpoint processPropertyArrays (config : NestedArrayConfig) (obj : value)
    (prop : string) {struct config} : result value :=
  match config with
  | mkConfig childArrays nestedConfig recursive =>
      let nested :=
        forEach
          (fun o (entry : string * NestedArrayConfig) =>
             let (childProp, childConfig) := entry in
             v <- get_prop o childProp ;;
             if truthy v then processPropertyArrays childConfig o childProp
             else Ok o)
          nestedConfig in
      s <- get_prop obj prop ;;
      if (prop =? "start") && truthy s && typeof_object s then
        s1 <- forEach ensureArray childArrays s ;;
        s2 <- nested s1 ;;
        set_prop obj prop s2
      else
        obj1 <- ensureArray obj prop ;;
        arr <- get_prop obj1 prop ;;
        match arr with
        | VArr [] _ => Ok obj1
        | VArr items own =>
            items' <-
              mapM
                (fun item =>
                   item1 <- forEach ensureArray childArrays item ;;
                   item2 <- nested item1 ;;
                   match recursive with
                   | Some r => reprocess prop r item2
                   | None => Ok item2
                   end)
                items ;;
            set_prop obj1 prop (VArr items' own)
        | _ => Ok obj1
        end
  end.

(** The body of [processNestedArrays(obj)]. *)
Definition processNestedArrays_body (obj : value) : result value :=
  if negb (truthy obj) || negb (typeof_object obj) then Ok obj
  else
    forEach
      (fun o (entry : string * NestedArrayConfig) =>
         let (prop, config) := entry in
         v <- get_prop o prop ;;
         if truthy v then processPropertyArrays config o prop else Ok o)
      NESTED_ARRAY_CONFIG obj.

End Normalisation.

(** The mutual recursion is not structural (the synthetic context is built
    afresh at each recursive step), so it is unfolded a given number of
    times. *)
Fixpoint processNestedArrays_fuel (fuel : nat) (obj : value) : result value :=
  match fuel with
  | O => Error OutOfFuel
  | S fuel' => processNestedArrays_body (processNestedArrays_fuel fuel') obj
  end.

(** [processNestedArrays(obj)].  Two unfoldings are always enough
    ([processNestedArrays_fuel_enough] below). *)
Definition processNestedArrays (obj : value) : result value :=
  processNestedArrays_fuel 2 obj.

(** [ensureArrayProperties(flow)]: the state of [flow] afterwards. *)
Definition ensureArrayProperties (flow : value) : result value :=
  flow1 <- forEach ensureArray FLOW_ARRAY_PROPERTIES flow ;;
  processNestedArrays flow1.

(* ================================================================== *)
(** * [helper.ts]: canonical ordering                                  *)
(* ================================================================== *)

Section Ordering.

(** [String.prototype.localeCompare] is the engine's collation: negative,
    zero or positive. *)
Variable localeCompare : string -> string -> Z.

(** The sort key of the comparator of [sortByName], [a.name || ""].  The
    type [NamedObject] gives [name] as a string when present; for any other
    truthy [name] the comparator throws or coerces, depending on the side
    the engine happens to put the element on. *)
Definition nameKey (a : value) : result string :=
  n <- get_prop a "name" ;;
  if truthy n then
    match n with
    | VStr s => Ok s
    | _ => Error Unmodelled
    end
  else Ok "".

Definition keyed : Type := string * value.

(** [Array.prototype.sort(compare)] on the elements that are not
    [undefined], as ECMAScript specifies it for a consistent comparator:
    the sorted order, stable.  Written as an insertion sort; an element
    stays in front of the elements that follow it in the input and compare
    equal to it. *)
Fixpoint insert (x : keyed) (l : list keyed) : list keyed :=
  match l with
  | [] => [x]
  | y :: l' =>
      if (localeCompare (fst x) (fst y) <=? 0)%Z then x :: y :: l'
      else y :: insert x l'
  end.

Fixpoint stableSort (l : list keyed) : list keyed :=
  match l with
  | [] => []
  | x :: l' => insert x (stableSort l')
  end.

(** [[...arr].sort((a, b) => ...)].  [undefined] elements go last without
    being compared; with fewer than two other elements the comparator is
    never called. *)
Definition sortElements (es : list value) : result (list value) :=
  let defined := filter (fun e => negb (isUndefined e)) es in
  let undefineds := filter isUndefined es in
  if (List.length defined <? 2)%nat then Ok (defined ++ undefineds)
  else
    ks <- mapM (fun e => k <- nameKey e ;; Ok (k, e)) defined ;;
    Ok (map snd (stableSort ks) ++ undefineds).

(** [sortByName(arr)]: a new array, or the argument itself when it is not an
    array. *)
Definition sortByName (arr : value) : result value :=
  if negb (truthy arr) || negb (isArray arr) then Ok arr
  else
    sorted <- sortElements (elements arr) ;;
    Ok (VArr sorted []).

(** The own enumerable properties an object spread [{ ...v }] copies. *)
Definition indexed (vs : list value) : props :=
  combine (map (fun i => string_of_Z (Z.of_nat i)) (seq 0 (List.length vs)))
          vs.

Definition chars (s : string) : list value :=
  map (fun c => VStr (String c EmptyString)) (list_ascii_of_string s).

Definition spread (v : value) : props :=
  match v with
  | VObj ps => ps
  | VArr es ps => indexed es ++ ps
  | VStr s => indexed (chars s)
  | _ => []
  end.

(** [sortFlowArrays(flow)]: the new object, or [flow] itself when falsy. *)
Definition sortFlowArrays (flow : value) : result value :=
  if negb (truthy flow) then Ok flow
  else
    forEach
      (fun sortedFlow prop =>
         v <- get_prop sortedFlow prop ;;
         if truthy v && isArray v then
           sorted <- sortByName v ;;
           set_prop sortedFlow prop sorted
         else Ok sortedFlow)
      FLOW_ARRAY_PROPERTIES (VObj (spread flow)).

End Ordering.

(* ================================================================== *)
(** * [nodes.ts]: the node graph                                       *)
(* ================================================================== *)

(** [getFlowNodes(flow)]. *)
Definition getFlowNodes (flow : value) : result (list value) :=
  start <- get_prop flow "start" ;;
  nodes <-
    forEach
      (fun nodes prop =>
         nodeArray <- get_prop flow prop ;;
         if truthy nodeArray && isArray nodeArray
         then Ok (nodes ++ elements nodeArray)
         else Ok nodes)
      FLOW_ARRAY_NODES [start] ;;
  Ok (filter truthy nodes).

(** [findFlowNodeByName(flow, name)]; [undefined] when there is none. *)
Definition findFlowNodeByName (flow : value) (name : string) : result value :=
  nodes <- getFlowNodes flow ;;
  named <- mapM (fun node => n <- get_prop node "name" ;; Ok (n, node)) nodes ;;
  match find (fun p => strictEqStr (fst p) name) named with
  | Some p => Ok (snd p)
  | None => Ok VUndef
  end.

Definition connectorSlots : list string :=
  [ "connector"; "defaultConnector"; "nextValueConnector";
    "noMoreValuesConnector"; "faultConnector" ].

Definition connectorArrays : list string :=
  [ "rules"; "scheduledPaths"; "waitEvents" ].

(** [node[slot].map((x) => x.connector)] when [node[slot]] is an array. *)
Definition connectorsOf (node : value) (slot : string) : result (list value) :=
  xs <- get_prop node slot ;;
  if isArray xs then mapM (fun x => get_prop x "connector") (elements xs)
  else Ok [].

(** [getConnectors(node)]. *)
Definition getConnectors (node : value) : result (list value) :=
  connector <- get_prop node "connector" ;;
  defaultConnector <- get_prop node "defaultConnector" ;;
  nextValueConnector <- get_prop node "nextValueConnector" ;;
  noMoreValuesConnector <- get_prop node "noMoreValuesConnector" ;;
  faultConnector <- get_prop node "faultConnector" ;;
  rules <- connectorsOf node "rules" ;;
  scheduledPaths <- connectorsOf node "scheduledPaths" ;;
  waitEvents <- connectorsOf node "waitEvents" ;;
  Ok (filter truthy
        ([connector; defaultConnector; nextValueConnector;
          noMoreValuesConnector; faultConnector]
         ++ rules ++ scheduledPaths ++ waitEvents)).

(** [connector.targetReference === name], for a connector that
    [getConnectors] returned. *)
Definition targets (name : string) (connector : value) : bool :=
  match get_prop connector "targetReference" with
  | Ok t => strictEqStr t name
  | Error _ => false
  end.

(** The predicate of the [filter] in [findParentFlowNodes]. *)
Definition isParentOf (childName : string) (node : value) : result bool :=
  connectors <- getConnectors node ;;
  Ok (existsb (targets childName) connectors).

Fixpoint filterM {A : Type} (f : A -> result bool) (l : list A)
  : result (list A) :=
  match l with
  | [] => Ok []
  | a :: l' =>
      keep <- f a ;;
      rest <- filterM f l' ;;
      Ok (if keep then a :: rest else rest)
  end.

(** [findParentFlowNodes(flow, childName)]. *)
Definition findParentFlowNodes (flow : value) (childName : string)
  : result (list value) :=
  nodes <- getFlowNodes flow ;;
  filterM (isParentOf childName) nodes.

(** The assignment of [reparentNode] on the connector held in
    [holder[slot]]: the state of [holder] afterwards. *)
Definition retargetSlot (source target : string) (holder : value)
    (slot : string) : result value :=
  connector <- get_prop holder slot ;;
  if truthy connector && targets source connector then
    connector' <- set_prop connector "targetReference" (VStr target) ;;
    set_prop holder slot connector'
  else Ok holder.

Definition retargetArray (source target : string) (node : value)
    (slot : string) : result value :=
  xs <- get_prop node slot ;;
  match xs with
  | VArr es own =>
      es' <- mapM (fun x => retargetSlot source target x "connector") es ;;
      set_prop node slot (VArr es' own)
  | _ => Ok node
  end.

(** The inner [forEach] of [reparentNode] on one parent: every connector
    [getConnectors] enumerates is mutated where it lives. *)
Definition retargetConnectors (source target : string) (parent : value)
  : result value :=
  parent1 <- forEach (retargetSlot source target) connectorSlots parent ;;
  forEach (retargetArray source target) connectorArrays parent1.

(** What [reparentNode] does to one node of the document. *)
Definition reparentVisit (source target : string) (node : value)
  : result value :=
  if truthy node then
    parent <- isParentOf source node ;;
    if parent then retargetConnectors source target node else Ok node
  else Ok node.

(** [reparentNode(flow, sourceNodeName, targetNodeName)]: the state of the
    document afterwards.  The document is a tree, so each parent found by
    [findParentFlowNodes] is mutated at the one place where it lives:
    [flow.start] or an element of one of the node collections.  The search
    for parents runs to its end before the first assignment. *)
Definition reparentNode (flow : value) (sourceNodeName targetNodeName : string)
  : result value :=
  _ <- findParentFlowNodes flow sourceNodeName ;;
  start <- get_prop flow "start" ;;
  flow1 <-
    (if truthy start then
       start' <- reparentVisit sourceNodeName targetNodeName start ;;
       set_prop flow "start" start'
     else Ok flow) ;;
  forEach
    (fun fl prop =>
       nodeArray <- get_prop fl prop ;;
       match nodeArray with
       | VArr es own =>
           es' <- mapM (reparentVisit sourceNodeName targetNodeName) es ;;
           set_prop fl prop (VArr es' own)
       | _ => Ok fl
       end)
    FLOW_ARRAY_NODES flow1.

(* ================================================================== *)
(** * [flow.ts]: [parse]                                               *)
(* ================================================================== *)


Section Codec.

(** [xmlLib.parse] of [@libs/xml], an external collaborator: text to a
    generic tree, or a thrown error. *)
Variable xmlLib_parse : string -> result value.




End Codec.

(* ================================================================== *)
(** * Vocabulary of the properties                                     *)
(* ================================================================== *)

(** [v[k]] read as a total function: [undefined] where the read throws. *)
Definition field (v : value) (k : string) : value :=
  match get_prop v k with
  | Ok x => x
  | Error _ => VUndef
  end.

(** The connector a slot contributes: itself when set, nothing when
    unset. *)
Definition setSlot (holder : value) (slot : string) : list value :=
  if truthy (field holder slot) then [field holder slot] else [].

(** The connectors the elements of an array-valued slot contribute, in
    element order. *)
Definition setIn (node : value) (slot : string) : list value :=
  flat_map (fun x => setSlot x "connector") (elements (field node slot)).

(** ** The sequence invariant *)

Definition inb (k : string) (l : list string) : bool :=
  existsb (String.eqb k) l.

Fixpoint nodupb (l : list string) : bool :=
  match l with
  | [] => true
  | k :: l' => negb (inb k l') && nodupb l'
  end.

Definition topKeys : list string := map fst NESTED_ARRAY_CONFIG.

(** [conforms c e]: on the element [e], every field [c] declares is an
    array, and so on for the elements of the fields that have a nested
    configuration.  The [recursive] marker is not followed. *)
Fixpoint conforms (c : NestedArrayConfig) (e : value) : bool :=
  match c with
  | mkConfig childArrays nestedConfig _ =>
      forallb (fun child => isArray (field e child)) childArrays
      && forallb
           (fun entry : string * NestedArrayConfig =>
              let (p, c') := entry in
              forallb (conforms c') (elements (field e p)))
           nestedConfig
  end.

(** The document-level invariant: every flat array field is an array, the
    elements of every configured collection conform, and so does the start
    node when there is one. *)
Definition entryConforms (flow : value) (entry : string * NestedArrayConfig)
  : bool :=
  let (p, c) := entry in
  if p =? "start" then
    if truthy (field flow p)
    then typeof_object (field flow p) && conforms c (field flow p)
    else true
  else forallb (conforms c) (elements (field flow p)).

Definition flowConforms (flow : value) : bool :=
  forallb (fun p => isArray (field flow p)) FLOW_ARRAY_PROPERTIES
  && forallb (entryConforms flow) NESTED_ARRAY_CONFIG.

(** The elements the Schema Table reaches in a document, each with the
    entry that governs it: the elements of a configured collection and the
    start node, the elements of a field with a nested configuration, and,
    when [deep] is set, the elements of the field an entry marks as
    recursive, governed by that same entry. *)
Inductive reachable (deep : bool) (flow : value)
  : NestedArrayConfig -> value -> Prop :=
| reach_collection (p : string) (c : NestedArrayConfig) (e : value) :
    In (p, c) NESTED_ARRAY_CONFIG -> p <> "start" ->
    In e (elements (field flow p)) -> reachable deep flow c e
| reach_start (c : NestedArrayConfig) :
    In ("start", c) NESTED_ARRAY_CONFIG ->
    truthy (field flow "start") = true ->
    reachable deep flow c (field flow "start")
| reach_nested (c : NestedArrayConfig) (e : value) (p : string)
    (c' : NestedArrayConfig) (e' : value) :
    reachable deep flow c e -> In (p, c') (nestedConfig c) ->
    In e' (elements (field e p)) -> reachable deep flow c' e'
| reach_recursive (c : NestedArrayConfig) (e : value) (r : string)
    (e' : value) :
    deep = true ->
    reachable deep flow c e -> recursive c = Some r ->
    In e' (elements (field e r)) -> reachable deep flow c e'.

(** The sequence invariant as the specification words it; with [deep]
    unset, the part of it that stops at the recursive marker. *)
Definition sequenceInvariantTo (deep : bool) (flow : value) : Prop :=
  (forall p, In p FLOW_ARRAY_PROPERTIES -> isArray (field flow p) = true)
  /\ (forall c e child,
        reachable deep flow c e -> In child (childArrays c) ->
        isArray (field e child) = true).

Definition sequenceInvariant : value -> Prop := sequenceInvariantTo true.

(** ** Properties of the Schema Table the proofs rely on *)

(** A nested entry under the field [prop]: its keys are distinct, each is
    among the child arrays, none is the start field, and a recursive marker
    names a child array. *)
Fixpoint wfNested (prop : string) (c : NestedArrayConfig) : bool :=
  match c with
  | mkConfig childArrays nestedConfig recursive =>
      negb (prop =? "start")
      && nodupb (map fst nestedConfig)
      && forallb
           (fun entry : string * NestedArrayConfig =>
              let (p, c') := entry in inb p childArrays && wfNested p c')
           nestedConfig
      && match recursive with
         | None => true
         | Some r => inb r childArrays
         end
  end.

(** Whether some entry at or below [c], itself under the field [prop], is
    marked recursive while its field is also a top-level key. *)
Fixpoint reentrant (prop : string) (c : NestedArrayConfig) : bool :=
  match c with
  | mkConfig _ nestedConfig recursive =>
      match recursive with
      | None => false
      | Some _ => inb prop topKeys
      end
      || existsb
           (fun entry : string * NestedArrayConfig =>
              let (p, c') := entry in reentrant p c')
           nestedConfig
  end.

Definition wfStart (c : NestedArrayConfig) : bool :=
  match c with
  | mkConfig childArrays nestedConfig recursive =>
      match childArrays with [] => false | _ => true end
      && nodupb (map fst nestedConfig)
      && forallb
           (fun entry : string * NestedArrayConfig =>
              let (p, c') := entry in inb p childArrays && wfNested p c')
           nestedConfig
  end.

Definition wfEntry (entry : string * NestedArrayConfig) : bool :=
  let (p, c) := entry in
  negb (reentrant p c)
  && if p =? "start" then wfStart c
     else inb p FLOW_ARRAY_PROPERTIES && wfNested p c.

Definition wfTable : bool :=
  nodupb topKeys && forallb wfEntry NESTED_ARRAY_CONFIG.

(** ** Named parts of [processPropertyArrays] *)

(** The loop over [config.nestedConfig], on the holder [o]. *)
Definition nestedEach (pna : value -> result value)
    (nestedConfig : list (string * NestedArrayConfig)) (o : value)
  : result value :=
  forEach
    (fun o (entry : string * NestedArrayConfig) =>
       let (childProp, childConfig) := entry in
       v <- get_prop o childProp ;;
       if truthy v then processPropertyArrays pna childConfig o childProp
       else Ok o)
    nestedConfig o.

(** The callback of the loop over the items of [obj[prop]]. *)
Definition processItem (pna : value -> result value) (prop : string)
    (c : NestedArrayConfig) (item : value) : result value :=
  item1 <- forEach ensureArray (childArrays c) item ;;
  item2 <- nestedEach pna (nestedConfig c) item1 ;;
  match recursive c with
  | Some r => reprocess pna prop r item2
  | None => Ok item2
  end.

(** ** What the proofs show of [processPropertyArrays] *)

(** The synthetic context of a recursive step under a field that is not a
    key of the Schema Table comes back untouched. *)
Definition inert (pna : value -> result value) : Prop :=
  forall prop r x,
    inb prop topKeys = false ->
    pna (tempObj prop r x) = Ok (tempObj prop r x).

(** On a field that already holds an array, [processPropertyArrays] makes
    the elements conform and touches no other field; where the elements
    conform already it changes nothing. *)
Definition ppaCorrect (pna : value -> result value) (c : NestedArrayConfig)
  : Prop :=
  forall prop,
    wfNested prop c = true -> reentrant prop c = false ->
    (forall o o',
        isArray (field o prop) = true ->
        processPropertyArrays pna c o prop = Ok o' ->
        isArray (field o' prop) = true
        /\ forallb (conforms c) (elements (field o' prop)) = true
        /\ (forall k, k <> prop -> field o' k = field o k))
    /\ (forall o,
          isArray (field o prop) = true ->
          forallb (conforms c) (elements (field o prop)) = true ->
          processPropertyArrays pna c o prop = Ok o).

(** ** The exceptions of the normalisation *)





(** ** Sample documents *)

Definition obj (ps : props) : value := VObj ps.
Definition arr (es : list value) : value := VArr es [].

(** A screen with a field group in a field group in a field group, each a
    single child element, as the codec hands it over: a bare object where a
    collection has one element. *)
Definition deepFieldsInner : value :=
  obj [("name", VStr "inner"); ("fields", obj [("name", VStr "leaf")])].

Definition deepFields : value :=
  obj [("screens",
        obj [("name", VStr "S1");
             ("fields",
              obj [("name", VStr "outer"); ("fields", deepFieldsInner)])])].

(** The entry of the Schema Table for the fields of a screen, the one with
    the recursive marker. *)
Definition fieldsConfig : NestedArrayConfig :=
  mkConfig
    ["fields"; "choiceReferences"; "inputParameters"; "outputParameters";
     "dataTypeMappings"]
    [] (Some "fields").

Definition screensConfig : NestedArrayConfig :=
  mkConfig ["fields"; "actions"; "rules"; "triggers"]
    [ ("rules", leaf ["conditions"; "ruleActions"]);
      ("triggers", leaf ["handlers"]);
      ("fields", fieldsConfig) ]
    None.

(** [v[i]] for an array [v]. *)
Definition item (i : nat) (v : value) : value := nth i (elements v) VUndef.

(** ** Vocabulary of the ordering *)

(** The name an element sorts under, [a.name ?? ""], for an element whose
    name is a string when present. *)
Definition keyOf (a : value) : string :=
  match field a "name" with
  | VStr s => s
  | _ => ""
  end.

(** An element of type [NamedObject]: an object whose [name] is absent or a
    string. *)
Definition namedElement (a : value) : bool :=
  match a with
  | VObj ps =>
      match lookup "name" ps with
      | VUndef | VStr _ => true
      | _ => false
      end
  | _ => false
  end.

(** An element with no name or the empty name. *)
Definition nameless (a : value) : bool := keyOf a =? "".

(** A collation to try the ordering on: code units, lexicographically. *)
Definition codeUnitCompare (a b : string) : Z :=
  match String.compare a b with
  | Eq => 0
  | Lt => -1
  | Gt => 1
  end.

Definition named (n : string) (tag : Z) : value :=
  obj [("name", VStr n); ("tag", VNum tag)].

Definition sampleArray : value :=
  arr [ named "C" 1; named "A" 2; obj [("tag", VNum 3)]; named "A" 4;
        named "" 5 ].

(** The order and the classes of equal names on keyed elements. *)
Definition keyedLe (localeCompare : string -> string -> Z) (x y : keyed)
  : Prop :=
  (localeCompare (fst x) (fst y) <= 0)%Z.

Definition sameKey (localeCompare : string -> string -> Z) (k : string)
    (x : keyed) : bool :=
  (localeCompare (fst x) k =? 0)%Z.

Definition wellKeyed (x : keyed) : Prop := fst x = keyOf (snd x).

(** ** Vocabulary of the node graph *)

Definition nullish (v : value) : bool :=
  match v with VUndef | VNull => true | _ => false end.

(** A connector after [connector.targetReference = target]. *)
Definition withTarget (target : string) (connector : value) : value :=
  match set_prop connector "targetReference" (VStr target) with
  | Ok connector' => connector'
  | Error _ => connector
  end.

(** What [reparentNode] makes of a connector slot's content: retargeted
    when it is a connector to [source], itself otherwise. *)
Definition retargeted (source target : string) (connector : value) : value :=
  if truthy connector && targets source connector
  then withTarget target connector
  else connector.

(** An element of [rules], [scheduledPaths] or [waitEvents] with its
    connector retargeted. *)
Definition retargetedIn (source target : string) (x : value) : value :=
  match retargetSlot source target x "connector" with
  | Ok x' => x'
  | Error _ => x
  end.

(** A node after [reparentNode] has visited it. *)
Definition visited (source target : string) (node : value) : value :=
  match reparentVisit source target node with
  | Ok node' => node'
  | Error _ => node
  end.

(** The nodes of a document: its start node, then the elements of its node
    collections, the falsy ones left out. *)
Definition allNodes (flow : value) : list value :=
  filter truthy
    (field flow "start"
     :: flat_map (fun p => elements (field flow p)) FLOW_ARRAY_NODES).

(** The connectors of a node, in the order of [getConnectors]. *)
Definition allConnectors (node : value) : list value :=
  setSlot node "connector"
  ++ setSlot node "defaultConnector"
  ++ setSlot node "nextValueConnector"
  ++ setSlot node "noMoreValuesConnector"
  ++ setSlot node "faultConnector"
  ++ setIn node "rules"
  ++ setIn node "scheduledPaths"
  ++ setIn node "waitEvents".

Definition connector (target : string) : value :=
  obj [("targetReference", VStr target)].

(** A decision with a default connector and two rules, one of them
    connected. *)
Definition sampleDecision : value :=
  obj [ ("name", VStr "Check");
        ("defaultConnector", connector "Otherwise");
        ("rules",
         arr [ obj [("name", VStr "r1"); ("connector", connector "Then")];
               obj [("name", VStr "r2")] ]) ].

(** A document with an assignment connected to itself. *)
Definition selfLoop : value :=
  obj [("assignments",
        arr [obj [("name", VStr "A"); ("connector", connector "A")]])].

(** A document in which the start node and a rule lead to [A]. *)
Definition sampleFlow : value :=
  obj [ ("start", obj [("connector", connector "A")]);
        ("assignments",
         arr [obj [("name", VStr "A"); ("connector", connector "B")]]);
        ("decisions",
         arr [obj [ ("name", VStr "B");
                    ("defaultConnector", connector "C");
                    ("rules",
                     arr [obj [("name", VStr "r1");
                               ("connector", connector "A")]]) ]]) ].

(** [getConnectors(node)] does not throw: the node is neither [null] nor
    [undefined], and neither is any of its rules, scheduled paths or wait
    events. *)
Definition readable (node : value) : bool :=
  negb (nullish node)
  && forallb
       (fun s => forallb (fun x => negb (nullish x)) (elements (field node s)))
       connectorArrays.

(** No connector of the node is left for [reparentNode] to change. *)
Definition settled (source target : string) (node : value) : Prop :=
  (forall s, In s connectorSlots ->
             retargeted source target (field node s) = field node s)
  /\ (forall s x, In s connectorArrays -> In x (elements (field node s)) ->
                  retargetedIn source target x = x).

(** [selfLoop] after [reparentNode(selfLoop, "A", "B")]. *)
Definition selfLoopAfter : value :=
  obj [("assignments",
        arr [obj [("name", VStr "A"); ("connector", connector "B")]])].

(** A document whose one decision has its rules out of order, and whose one
    screen has its fields and actions out of order. *)
Definition rulesBA : value :=
  arr [obj [("name", VStr "b")]; obj [("name", VStr "a")]].

Definition nestedUnsorted : value :=
  obj [ ("decisions", arr [obj [("name", VStr "D1"); ("rules", rulesBA)]]);
        ("screens",
         arr [obj [ ("name", VStr "S1");
                    ("fields",
                     arr [obj [("name", VStr "z")]; obj [("name", VStr "y")]]);
                    ("actions",
                     arr [obj [("name", VStr "q")];
                          obj [("name", VStr "p")]]) ]]) ].

(** ** Vocabulary of [parse] *)


(** The scenario of the specification: a single decision with a single
    rule, as the codec hands it over, and what normalisation makes of it. *)
Definition scenario : value :=
  obj [("decisions",
        obj [("name", VStr "D1"); ("rules", obj [("name", VStr "R1")])])].

Definition scenarioNormalised : value :=
  Eval vm_compute in
    match ensureArrayProperties scenario with
    | Ok flow => flow
    | Error _ => VUndef
    end.

(** [sampleFlow] after [reparentNode(sampleFlow, "A", "X")]. *)
Definition sampleFlowAfter : value :=
  obj [ ("start", obj [("connector", connector "X")]);
        ("assignments",
         arr [obj [("name", VStr "A"); ("connector", connector "B")]]);
        ("decisions",
         arr [obj [ ("name", VStr "B");
                    ("defaultConnector", connector "C");
                    ("rules",
                     arr [obj [("name", VStr "r1");
                               ("connector", connector "X")]]) ]]) ].

(* ================================================================== *)
(** * Own properties                                                   *)
(* ================================================================== *)

Lemma lookup_update_same (k : string) (x : value) (ps : props) :
  lookup k (update k x ps) = x.
Proof.
  induction ps as [|[k' v'] ps IH]; simpl.
  - now rewrite String.eqb_refl.
  - destruct (k =? k') eqn:E; simpl; rewrite ?String.eqb_refl, ?E; auto.
Qed.

Lemma lookup_update_other (k k' : string) (x : value) (ps : props) :
  k' <> k -> lookup k' (update k x ps) = lookup k' ps.
Proof.
  intros Hne. apply String.eqb_neq in Hne.
  induction ps as [|[k0 v0] ps IH]; simpl.
  - now rewrite Hne.
  - destruct (k =? k0) eqn:E; simpl.
    + apply String.eqb_eq in E; subst k0. now rewrite Hne.
    + destruct (k' =? k0); auto.
Qed.

(** An assignment of the value a key already holds changes nothing, provided
    the key is really there (a missing key reads as [undefined] too). *)
Lemma update_lookup_id (k : string) (ps : props) :
  In k (map fst ps) -> update k (lookup k ps) ps = ps.
Proof.
  induction ps as [|[k0 v0] ps IH]; simpl; [tauto|].
  intros Hin. destruct (k =? k0) eqn:E.
  - apply String.eqb_eq in E. now subst.
  - f_equal. apply IH. destruct Hin as [->|]; auto.
    now rewrite String.eqb_refl in E.
Qed.

Lemma lookup_defined_in (k : string) (ps : props) :
  lookup k ps <> VUndef -> In k (map fst ps).
Proof.
  induction ps as [|[k0 v0] ps IH]; simpl; [congruence|].
  destruct (k =? k0) eqn:E; auto.
  apply String.eqb_eq in E. auto.
Qed.

(* ================================================================== *)
(** * [ensureArray]                                                    *)
(* ================================================================== *)


(* ================================================================== *)
(** * The recursive step of the normalisation                          *)
(* ================================================================== *)

Lemma wfTable_holds : wfTable = true.
Proof. reflexivity. Qed.

Lemma inb_In (k : string) (l : list string) : inb k l = true <-> In k l.
Proof.
  unfold inb. rewrite existsb_exists. split.
  - intros [x [Hx E]]. apply String.eqb_eq in E. now subst.
  - intros H. exists k. split; auto. apply String.eqb_refl.
Qed.

Lemma lookup_absent (k : string) (ps : props) :
  ~ In k (map fst ps) -> lookup k ps = VUndef.
Proof.
  induction ps as [|[k0 v0] ps IH]; simpl; auto.
  intros H. destruct (k =? k0) eqn:E.
  - apply String.eqb_eq in E. subst. tauto.
  - apply IH. tauto.
Qed.

(** On an object none of whose keys is a key of the Schema Table,
    [processNestedArrays] looks every entry up in vain. *)
Lemma forEach_entries_skip (pna : value -> result value) (ps : props)
    (table : list (string * NestedArrayConfig)) :
  (forall k, In k (map fst table) -> ~ In k (map fst ps)) ->
  forEach
    (fun o (entry : string * NestedArrayConfig) =>
       let (prop, config) := entry in
       v <- get_prop o prop ;;
       if truthy v then processPropertyArrays pna config o prop else Ok o)
    table (VObj ps) = Ok (VObj ps).
Proof.
  induction table as [|[p c] table IH]; simpl; intros H; auto.
  rewrite lookup_absent by (apply H; auto). simpl.
  apply IH. intros k Hk. apply H. auto.
Qed.

Lemma processNestedArrays_body_skip (pna : value -> result value)
    (ps : props) :
  (forall k, In k topKeys -> ~ In k (map fst ps)) ->
  processNestedArrays_body pna (VObj ps) = Ok (VObj ps).
Proof.
  intros H. unfold processNestedArrays_body.
  cbn [truthy typeof_object negb orb].
  now apply forEach_entries_skip.
Qed.

Lemma processNestedArrays_body_inert (pna : value -> result value) :
  inert (processNestedArrays_body pna).
Proof.
  intros prop r x Hprop. unfold tempObj.
  apply processNestedArrays_body_skip.
  intros k Hk [<-|[]]. apply inb_In in Hk. cbn [fst] in Hk. congruence.
Qed.

Lemma processNestedArrays_fuel_inert (n : nat) :
  inert (processNestedArrays_fuel (S n)).
Proof. simpl. apply processNestedArrays_body_inert. Qed.

Lemma readBack_unchanged (prop r : string) (x : value) :
  readBack prop r x (tempObj prop r x) = x.
Proof.
  unfold readBack, tempObj. cbn [lookup].
  rewrite String.eqb_refl. cbn [elements nth lookup].
  rewrite String.eqb_refl. now destruct x.
Qed.

(* ================================================================== *)
(** * Normalisation establishes the invariant and fixes it             *)
(* ================================================================== *)

Lemma processPropertyArrays_unfold (pna : value -> result value)
    (c : NestedArrayConfig) (o : value) (prop : string) :
  processPropertyArrays pna c o prop =
  (s <- get_prop o prop ;;
   if (prop =? "start") && truthy s && typeof_object s then
     s1 <- forEach ensureArray (childArrays c) s ;;
     s2 <- nestedEach pna (nestedConfig c) s1 ;;
     set_prop o prop s2
   else
     obj1 <- ensureArray o prop ;;
     arr <- get_prop obj1 prop ;;
     match arr with
     | VArr [] _ => Ok obj1
     | VArr items own =>
         items' <- mapM (processItem pna prop c) items ;;
         set_prop obj1 prop (VArr items' own)
     | _ => Ok obj1
     end).
Proof. destruct c; reflexivity. Qed.

Lemma config_induction (P : NestedArrayConfig -> Prop) :
  (forall cas ncs rec,
      Forall (fun entry => P (snd entry)) ncs -> P (mkConfig cas ncs rec)) ->
  forall c, P c.
Proof.
  intros step.
  fix IH 1. intros [cas ncs rec]. apply step.
  induction ncs as [|[p c'] ncs IHn].
  - constructor.
  - constructor; [exact (IH c') | exact IHn].
Qed.

(** ** Reading and writing the fields of a holder *)

Lemma field_array_get (o : value) (k : string) :
  isArray (field o k) = true -> get_prop o k = Ok (field o k).
Proof. unfold field. destruct (get_prop o k); simpl; congruence. Qed.

Lemma field_truthy_get (o : value) (k : string) :
  truthy (field o k) = true -> get_prop o k = Ok (field o k).
Proof. unfold field. destruct (get_prop o k); simpl; congruence. Qed.

Lemma get_prop_ok_field (o : value) (k : string) (v : value) :
  get_prop o k = Ok v -> field o k = v.
Proof. unfold field. now intros ->. Qed.

Lemma isArray_truthy (v : value) : isArray v = true -> truthy v = true.
Proof. now destruct v. Qed.

Lemma set_prop_field (o : value) (k : string) (x : value) (o' : value) :
  set_prop o k x = Ok o' ->
  field o' k = x /\ (forall k', k' <> k -> field o' k' = field o k').
Proof.
  destruct o as [| |b|z| |s|es ps|ps]; simpl; try discriminate.
  - destruct (k =? "length") eqn:E; [discriminate|].
    intros H; injection H as <-. unfold field; simpl. rewrite E. split.
    + apply lookup_update_same.
    + intros k' Hk. destruct (k' =? "length"); auto.
      now rewrite lookup_update_other.
  - intros H; injection H as <-. unfold field; simpl. split.
    + apply lookup_update_same.
    + intros k' Hk. now rewrite lookup_update_other.
Qed.

(** Writing back the array a field already holds changes nothing. *)
Lemma set_prop_field_id (o : value) (k : string) :
  isArray (field o k) = true -> set_prop o k (field o k) = Ok o.
Proof.
  unfold field. destruct o as [| |b|z| |s|es ps|ps]; simpl; try discriminate.
  - destruct (k =? "length"); discriminate.
  - destruct (k =? "length"); [discriminate|]. intros H.
    rewrite update_lookup_id; auto. apply lookup_defined_in.
    intros E. now rewrite E in H.
  - intros H. rewrite update_lookup_id; auto. apply lookup_defined_in.
    intros E. now rewrite E in H.
Qed.

Lemma set_prop_truthy_id (o : value) (k : string) :
  truthy (field o k) = true -> typeof_object (field o k) = true ->
  set_prop o k (field o k) = Ok o.
Proof.
  unfold field. destruct o as [| |b|z| |s|es ps|ps]; simpl; try discriminate.
  - destruct (k =? "length"); discriminate.
  - destruct (k =? "length"); [discriminate|]. intros H _.
    rewrite update_lookup_id; auto. apply lookup_defined_in.
    intros E. now rewrite E in H.
  - intros H _. rewrite update_lookup_id; auto. apply lookup_defined_in.
    intros E. now rewrite E in H.
Qed.

(** Only an object or an array has a field that holds an array. *)
Lemma array_field_holder (e : value) (k : string) :
  isArray (field e k) = true -> truthy e = true /\ typeof_object e = true.
Proof.
  unfold field. destruct e as [| |b|z| |s|es ps|ps]; simpl; try discriminate;
    auto.
  destruct (k =? "length"); discriminate.
Qed.

(** ** [ensureArray] on one field and on a list of fields *)

Lemma ensureArray_spec (o : value) (k : string) (o' : value) :
  ensureArray o k = Ok o' ->
  isArray (field o' k) = true
  /\ (forall k', k' <> k -> field o' k' = field o k')
  /\ (isArray (field o k) = true -> o' = o).
Proof.
  unfold ensureArray. intros H.
  destruct (get_prop o k) as [v|] eqn:Eg; cbn [bind] in H; [|discriminate].
  pose proof (get_prop_ok_field _ _ _ Eg) as Ef.
  destruct (truthy v && negb (isArray v)) eqn:E1.
  - apply set_prop_field in H. destruct H as [H1 H2].
    rewrite H1, Ef. repeat split; auto.
    apply andb_prop in E1. destruct E1 as [_ E1]. intros E2.
    rewrite E2 in E1. discriminate.
  - destruct (negb (truthy v)) eqn:E2.
    + apply set_prop_field in H. destruct H as [H1 H2].
      rewrite H1, Ef. repeat split; auto.
      intros E3. apply isArray_truthy in E3. rewrite E3 in E2. discriminate.
    + injection H as <-. rewrite Ef.
      apply negb_false_iff in E2. rewrite E2 in E1. simpl in E1.
      apply negb_false_iff in E1. auto.
Qed.

Lemma ensureArray_fix (o : value) (k : string) :
  isArray (field o k) = true -> ensureArray o k = Ok o.
Proof.
  intros H. unfold ensureArray. rewrite (field_array_get _ _ H).
  cbn [bind]. rewrite H, (isArray_truthy _ H). reflexivity.
Qed.

Lemma ensureAll_spec (cas : list string) (o o' : value) :
  forEach ensureArray cas o = Ok o' ->
  (forall child, In child cas -> isArray (field o' child) = true)
  /\ (forall k, ~ In k cas -> field o' k = field o k)
  /\ (forall k, isArray (field o k) = true -> field o' k = field o k).
Proof.
  revert o. induction cas as [|a cas IH]; intros o H.
  - injection H as <-. repeat split; auto.
  - cbn [forEach] in H.
    destruct (ensureArray o a) as [o1|] eqn:E; cbn [bind] in H;
      [|discriminate].
    apply ensureArray_spec in E. destruct E as (Ea & Eframe & Efix).
    apply IH in H. destruct H as (H1 & H2 & H3).
    split; [|split].
    + intros child [<-|Hin]; auto. rewrite H3; auto.
    + intros k Hk. rewrite H2 by (simpl in Hk; tauto).
      apply Eframe. simpl in Hk. intros ->. tauto.
    + intros k Hk. destruct (String.eqb_spec k a) as [->|Hne].
      * rewrite (Efix Hk) in *. auto.
      * rewrite <- (Eframe _ Hne) in Hk. rewrite (H3 _ Hk). auto.
Qed.

Lemma ensureAll_fix (cas : list string) (o : value) :
  (forall child, In child cas -> isArray (field o child) = true) ->
  forEach ensureArray cas o = Ok o.
Proof.
  induction cas as [|a cas IH]; intros H; auto.
  cbn [forEach]. rewrite ensureArray_fix by (apply H; simpl; auto).
  cbn [bind]. apply IH. intros; apply H; simpl; auto.
Qed.

(** A truthy primitive cannot be given a field. *)
Lemma ensureArray_primitive (s : value) (k : string) :
  truthy s = true -> typeof_object s = false -> isOk (ensureArray s k) = false.
Proof.
  unfold ensureArray.
  destruct s as [| |b|z| |s|es ps|ps]; simpl; try discriminate; auto.
  intros _ _. destruct (k =? "length"); simpl; auto.
  destruct (negb (Z.of_nat (String.length s) =? 0)%Z); simpl; auto.
Qed.

Lemma mapM_ok_Forall {A B : Type} (f : A -> result B) (P : B -> Prop)
    (l : list A) (l' : list B) :
  (forall a b, In a l -> f a = Ok b -> P b) ->
  mapM f l = Ok l' -> Forall P l'.
Proof.
  revert l'. induction l as [|a l IH]; intros l' Hf H.
  - injection H as <-. constructor.
  - cbn [mapM] in H.
    destruct (f a) as [b|] eqn:Ea; cbn [bind] in H; [|discriminate].
    destruct (mapM f l) as [bs|] eqn:El; cbn [bind] in H; [|discriminate].
    injection H as <-. constructor.
    + apply (Hf a); simpl; auto.
    + apply IH; auto. intros a' b' Hin. apply Hf. simpl; auto.
Qed.

Lemma mapM_fix {A : Type} (f : A -> result A) (l : list A) :
  (forall a, In a l -> f a = Ok a) -> mapM f l = Ok l.
Proof.
  induction l as [|a l IH]; intros Hf; auto.
  cbn [mapM]. rewrite Hf by (simpl; auto). cbn [bind].
  rewrite IH; auto. intros a' Hin. apply Hf. simpl; auto.
Qed.

Lemma nodupb_cons (k : string) (l : list string) :
  nodupb (k :: l) = true -> ~ In k l /\ nodupb l = true.
Proof.
  simpl. intros H. apply andb_prop in H. destruct H as [H1 H2].
  split; auto. intros Hin. apply inb_In in Hin. rewrite Hin in H1.
  discriminate.
Qed.

Section Reprocessing.

Variable pna : value -> result value.
Hypothesis pna_inert : inert pna.

(** Under a field that is not a key of the Schema Table, the recursive step
    leaves the item as it is. *)
Lemma reprocess_inert (prop r : string) (item : value) :
  inb prop topKeys = false ->
  isArray (field item r) = true ->
  reprocess pna prop r item = Ok item.
Proof.
  intros Hp Ha. unfold reprocess. destruct (r =? ""); auto.
  rewrite (field_array_get _ _ Ha). cbn [bind].
  rewrite (isArray_truthy _ Ha).
  destruct (field item r) as [| |b|z| |s|es ps|ps] eqn:E; try discriminate.
  cbn [get_prop]. change ("length" =? "length") with true.
  cbn [bind gt_zero].
  destruct (0 <? Z.of_nat (List.length es))%Z; auto.
  rewrite pna_inert by auto. cbn [bind].
  rewrite readBack_unchanged, <- E.
  apply set_prop_field_id. now rewrite E.
Qed.

Lemma nestedEach_ok (cas : list string)
    (ncs : list (string * NestedArrayConfig)) :
  Forall (fun entry => ppaCorrect pna (snd entry)) ncs ->
  nodupb (map fst ncs) = true ->
  forallb
    (fun entry : string * NestedArrayConfig =>
       let (p, c') := entry in inb p cas && wfNested p c') ncs = true ->
  existsb
    (fun entry : string * NestedArrayConfig =>
       let (p, c') := entry in reentrant p c') ncs = false ->
  forall o o',
    (forall child, In child cas -> isArray (field o child) = true) ->
    nestedEach pna ncs o = Ok o' ->
    (forall child, In child cas -> isArray (field o' child) = true)
    /\ forallb
         (fun entry : string * NestedArrayConfig =>
            let (p, c') := entry in
            forallb (conforms c') (elements (field o' p))) ncs = true
    /\ (forall k, ~ In k (map fst ncs) -> field o' k = field o k).
Proof.
  unfold nestedEach.
  induction ncs as [|[p c'] ncs IH]; intros HF Hnd Hwf Hre o o' Hcas H.
  - injection H as <-. auto.
  - cbn [forEach] in H. cbn [map fst] in Hnd.
    apply nodupb_cons in Hnd. destruct Hnd as [Hp Hnd].
    cbn [forallb] in Hwf. apply andb_prop in Hwf.
    destruct Hwf as [Hwf1 Hwf]. apply andb_prop in Hwf1.
    destruct Hwf1 as [Hin Hwfp]. apply inb_In in Hin.
    cbn [existsb] in Hre. apply orb_false_elim in Hre.
    destruct Hre as [Hrep Hre].
    inversion HF as [|? ? HFp HF']; subst. cbn [snd] in HFp.
    destruct (HFp p Hwfp Hrep) as [Hok _].
    pose proof (Hcas p Hin) as Harr.
    rewrite (field_array_get _ _ Harr) in H. cbn [bind] in H.
    rewrite (isArray_truthy _ Harr) in H.
    destruct (processPropertyArrays pna c' o p) as [mid|] eqn:Emid;
      cbn [bind] in H; [|discriminate].
    destruct (Hok o mid Harr Emid) as (Hmid1 & Hmid2 & Hmid3).
    assert (Hcas' : forall child, In child cas ->
                                  isArray (field mid child) = true).
    { intros child Hc. destruct (String.eqb_spec child p) as [->|Hne]; auto.
      rewrite Hmid3; auto. }
    destruct (IH HF' Hnd Hwf Hre mid o' Hcas' H) as (H1 & H2 & H3).
    split; [exact H1|]. split.
    + cbn [forallb]. rewrite H2, andb_true_r. now rewrite H3.
    + intros k Hk. cbn [map fst] in Hk.
      rewrite H3 by (simpl in Hk; tauto).
      apply Hmid3. simpl in Hk. intros ->. tauto.
Qed.

Lemma nestedEach_fix (cas : list string)
    (ncs : list (string * NestedArrayConfig)) :
  Forall (fun entry => ppaCorrect pna (snd entry)) ncs ->
  forallb
    (fun entry : string * NestedArrayConfig =>
       let (p, c') := entry in inb p cas && wfNested p c') ncs = true ->
  existsb
    (fun entry : string * NestedArrayConfig =>
       let (p, c') := entry in reentrant p c') ncs = false ->
  forall o,
    (forall child, In child cas -> isArray (field o child) = true) ->
    forallb
      (fun entry : string * NestedArrayConfig =>
         let (p, c') := entry in
         forallb (conforms c') (elements (field o p))) ncs = true ->
    nestedEach pna ncs o = Ok o.
Proof.
  unfold nestedEach.
  induction ncs as [|[p c'] ncs IH]; intros HF Hwf Hre o Hcas Hconf; auto.
  cbn [forEach].
  cbn [forallb] in Hwf. apply andb_prop in Hwf.
  destruct Hwf as [Hwf1 Hwf]. apply andb_prop in Hwf1.
  destruct Hwf1 as [Hin Hwfp]. apply inb_In in Hin.
  cbn [existsb] in Hre. apply orb_false_elim in Hre.
  destruct Hre as [Hrep Hre].
  cbn [forallb] in Hconf. apply andb_prop in Hconf.
  destruct Hconf as [Hconfp Hconf].
  inversion HF as [|? ? HFp HF']; subst. cbn [snd] in HFp.
  destruct (HFp p Hwfp Hrep) as [_ Hfix].
  pose proof (Hcas p Hin) as Harr.
  rewrite (field_array_get _ _ Harr). cbn [bind].
  rewrite (isArray_truthy _ Harr).
  rewrite (Hfix o Harr Hconfp). cbn [bind]. now apply IH.
Qed.

Lemma processItem_ok (prop : string) (cas : list string)
    (ncs : list (string * NestedArrayConfig)) (rec : option string)
    (item item' : value) :
  Forall (fun entry => ppaCorrect pna (snd entry)) ncs ->
  wfNested prop (mkConfig cas ncs rec) = true ->
  reentrant prop (mkConfig cas ncs rec) = false ->
  processItem pna prop (mkConfig cas ncs rec) item = Ok item' ->
  conforms (mkConfig cas ncs rec) item' = true.
Proof.
  intros HF Hwf Hre H. unfold processItem in H.
  cbn [childArrays nestedConfig recursive] in H.
  cbn [wfNested] in Hwf. rewrite !andb_true_iff in Hwf.
  destruct Hwf as [[[_ Hnd] Hwfn] Hrec].
  cbn [reentrant] in Hre. apply orb_false_elim in Hre.
  destruct Hre as [Hre1 Hre2].
  destruct (forEach ensureArray cas item) as [item1|] eqn:E1;
    cbn [bind] in H; [|discriminate].
  apply ensureAll_spec in E1. destruct E1 as [Hcas _].
  destruct (nestedEach pna ncs item1) as [item2|] eqn:E2;
    cbn [bind] in H; [|discriminate].
  destruct (nestedEach_ok cas ncs HF Hnd Hwfn Hre2 item1 item2 Hcas E2)
    as (H1 & H2 & _).
  assert (item' = item2) as ->.
  { destruct rec as [r|]; [|congruence].
    apply inb_In in Hrec.
    rewrite reprocess_inert in H; auto. congruence. }
  cbn [conforms]. rewrite H2, andb_true_r.
  apply forallb_forall. auto.
Qed.

Lemma processItem_fix (prop : string) (cas : list string)
    (ncs : list (string * NestedArrayConfig)) (rec : option string)
    (item : value) :
  Forall (fun entry => ppaCorrect pna (snd entry)) ncs ->
  wfNested prop (mkConfig cas ncs rec) = true ->
  reentrant prop (mkConfig cas ncs rec) = false ->
  conforms (mkConfig cas ncs rec) item = true ->
  processItem pna prop (mkConfig cas ncs rec) item = Ok item.
Proof.
  intros HF Hwf Hre Hc. unfold processItem.
  cbn [childArrays nestedConfig recursive].
  cbn [wfNested] in Hwf. rewrite !andb_true_iff in Hwf.
  destruct Hwf as [[[_ Hnd] Hwfn] Hrec].
  cbn [reentrant] in Hre. apply orb_false_elim in Hre.
  destruct Hre as [Hre1 Hre2].
  cbn [conforms] in Hc. apply andb_prop in Hc. destruct Hc as [Hc1 Hc2].
  assert (Hcas : forall child, In child cas ->
                               isArray (field item child) = true).
  { intros child Hin. rewrite forallb_forall in Hc1. auto. }
  rewrite ensureAll_fix by exact Hcas. cbn [bind].
  rewrite (nestedEach_fix cas ncs HF Hwfn Hre2 item Hcas Hc2). cbn [bind].
  destruct rec as [r|]; auto.
  apply inb_In in Hrec. apply reprocess_inert; auto.
Qed.

(** The two halves of the correctness of [processPropertyArrays], by
    induction on the configuration. *)
Lemma processPropertyArrays_correct (c : NestedArrayConfig) :
  ppaCorrect pna c.
Proof.
  induction c as [cas ncs rec HF] using config_induction.
  intros prop Hwf Hre.
  assert (Hstart : (prop =? "start") = false).
  { cbn [wfNested] in Hwf. rewrite !andb_true_iff in Hwf.
    destruct Hwf as [[[Hs _] _] _]. now apply negb_true_iff in Hs. }
  split.
  - intros o o' Harr H.
    rewrite processPropertyArrays_unfold in H.
    rewrite (field_array_get _ _ Harr) in H. cbn [bind] in H.
    rewrite Hstart in H. cbn [andb] in H.
    rewrite (ensureArray_fix _ _ Harr) in H. cbn [bind] in H.
    rewrite (field_array_get _ _ Harr) in H. cbn [bind] in H.
    destruct (field o prop) as [| |b|z| |s|items own|ps] eqn:E;
      try discriminate.
    destruct items as [|i items].
    + injection H as <-. rewrite E. auto.
    + destruct (mapM (processItem pna prop (mkConfig cas ncs rec))
                     (i :: items)) as [items'|] eqn:Em;
        cbn [bind] in H; [|discriminate].
      apply set_prop_field in H. destruct H as [H1 H2].
      rewrite H1. cbn [isArray elements]. repeat split; auto.
      apply forallb_forall. apply Forall_forall.
      eapply mapM_ok_Forall; [|exact Em].
      intros a b' _ Hab. eapply processItem_ok; eauto.
  - intros o Harr Hconf.
    rewrite processPropertyArrays_unfold.
    rewrite (field_array_get _ _ Harr). cbn [bind].
    rewrite Hstart. cbn [andb].
    rewrite (ensureArray_fix _ _ Harr). cbn [bind].
    rewrite (field_array_get _ _ Harr). cbn [bind].
    destruct (field o prop) as [| |b|z| |s|items own|ps] eqn:E;
      try discriminate.
    destruct items as [|i items]; auto.
    rewrite mapM_fix.
    + cbn [bind]. rewrite <- E. apply set_prop_field_id. now rewrite E.
    + intros a Hin. apply processItem_fix; auto.
      cbn [elements] in Hconf. rewrite forallb_forall in Hconf. auto.
Qed.

End Reprocessing.

(** ** The start node *)

Lemma holder_get (o : value) (k : string) :
  truthy o = true -> typeof_object o = true -> get_prop o k = Ok (field o k).
Proof.
  unfold field. destruct o; simpl; try discriminate; auto.
Qed.

Lemma ensureArray_wrap (o : value) (k : string) (o1 : value) :
  truthy (field o k) = true -> isArray (field o k) = false ->
  ensureArray o k = Ok o1 -> field o1 k = VArr [field o k] [].
Proof.
  intros Ht Ha H. unfold ensureArray in H.
  rewrite (field_truthy_get _ _ Ht) in H. cbn [bind] in H.
  rewrite Ht, Ha in H. cbn [andb negb] in H.
  now apply set_prop_field in H.
Qed.

Section StartNode.

Variable pna : value -> result value.
Hypothesis pna_inert : inert pna.

Lemma start_ok (c : NestedArrayConfig) (o o' : value) :
  wfStart c = true -> reentrant "start" c = false ->
  truthy (field o "start") = true ->
  processPropertyArrays pna c o "start" = Ok o' ->
  truthy (field o' "start") = true
  /\ typeof_object (field o' "start") = true
  /\ conforms c (field o' "start") = true
  /\ (forall k, k <> "start" -> field o' k = field o k).
Proof.
  destruct c as [cas ncs rec]. intros Hwf Hre Ht H.
  cbn [wfStart] in Hwf. rewrite !andb_true_iff in Hwf.
  destruct Hwf as [[Hne Hnd] Hwfn].
  cbn [reentrant] in Hre. apply orb_false_elim in Hre.
  destruct Hre as [_ Hre].
  assert (HF : Forall (fun entry => ppaCorrect pna (snd entry)) ncs).
  { apply Forall_forall. intros entry _.
    now apply processPropertyArrays_correct. }
  rewrite processPropertyArrays_unfold in H.
  cbn [childArrays nestedConfig] in H.
  rewrite (field_truthy_get _ _ Ht) in H. cbn [bind] in H.
  change ("start" =? "start") with true in H. rewrite Ht in H.
  cbn [andb] in H.
  destruct (typeof_object (field o "start")) eqn:Eobj.
  - destruct (forEach ensureArray cas (field o "start")) as [s1|] eqn:E1;
      cbn [bind] in H; [|discriminate].
    apply ensureAll_spec in E1. destruct E1 as [Hcas _].
    destruct (nestedEach pna ncs s1) as [s2|] eqn:E2;
      cbn [bind] in H; [|discriminate].
    destruct (nestedEach_ok pna cas ncs HF Hnd Hwfn Hre s1 s2
                Hcas E2) as (H1 & H2 & _).
    apply set_prop_field in H. destruct H as [Hs Hframe].
    rewrite Hs. destruct cas as [|child cas]; [discriminate|].
    destruct (array_field_holder s2 child) as [Ht2 Ho2];
      [apply H1; simpl; auto|].
    repeat split; auto.
    cbn [conforms]. rewrite H2, andb_true_r.
    apply forallb_forall. auto.
  - exfalso.
    destruct (ensureArray o "start") as [o1|] eqn:E1; cbn [bind] in H;
      [|discriminate].
    assert (Hna : isArray (field o "start") = false).
    { destruct (field o "start"); try reflexivity; discriminate. }
    pose proof (ensureArray_wrap _ _ _ Ht Hna E1) as Hw.
    assert (Hg : get_prop o1 "start" = Ok (field o1 "start")).
    { apply field_array_get. now rewrite Hw. }
    rewrite Hg, Hw in H. cbn [bind mapM] in H.
    unfold processItem at 1 in H. cbn [childArrays] in H.
    destruct cas as [|child cas]; [discriminate|].
    cbn [forEach] in H.
    pose proof (ensureArray_primitive (field o "start") child Ht Eobj) as Hp.
    destruct (ensureArray (field o "start") child); [discriminate|].
    discriminate.
Qed.

Lemma start_fix (c : NestedArrayConfig) (o : value) :
  wfStart c = true -> reentrant "start" c = false ->
  truthy (field o "start") = true ->
  typeof_object (field o "start") = true ->
  conforms c (field o "start") = true ->
  processPropertyArrays pna c o "start" = Ok o.
Proof.
  destruct c as [cas ncs rec]. intros Hwf Hre Ht Ho Hc.
  cbn [wfStart] in Hwf. rewrite !andb_true_iff in Hwf.
  destruct Hwf as [[Hne Hnd] Hwfn].
  cbn [reentrant] in Hre. apply orb_false_elim in Hre.
  destruct Hre as [_ Hre].
  assert (HF : Forall (fun entry => ppaCorrect pna (snd entry)) ncs).
  { apply Forall_forall. intros entry _.
    now apply processPropertyArrays_correct. }
  cbn [conforms] in Hc. apply andb_prop in Hc. destruct Hc as [Hc1 Hc2].
  assert (Hcas : forall child, In child cas ->
                     isArray (field (field o "start") child) = true).
  { intros child Hin. rewrite forallb_forall in Hc1. auto. }
  rewrite processPropertyArrays_unfold.
  cbn [childArrays nestedConfig].
  rewrite (field_truthy_get _ _ Ht). cbn [bind].
  change ("start" =? "start") with true. rewrite Ht, Ho. cbn [andb].
  rewrite ensureAll_fix by exact Hcas. cbn [bind].
  rewrite (nestedEach_fix pna cas ncs HF Hwfn Hre _ Hcas Hc2).
  cbn [bind]. now apply set_prop_truthy_id.
Qed.

(** ** The loop over the Schema Table *)

Lemma start_not_flat : inb "start" FLOW_ARRAY_PROPERTIES = false.
Proof. reflexivity. Qed.

Lemma table_ok (tbl : list (string * NestedArrayConfig)) :
  nodupb (map fst tbl) = true ->
  forallb wfEntry tbl = true ->
  forall o o',
    (forall p, In p FLOW_ARRAY_PROPERTIES -> isArray (field o p) = true) ->
    forEach
      (fun o (entry : string * NestedArrayConfig) =>
         let (prop, config) := entry in
         v <- get_prop o prop ;;
         if truthy v then processPropertyArrays pna config o prop else Ok o)
      tbl o = Ok o' ->
    (forall p, In p FLOW_ARRAY_PROPERTIES -> isArray (field o' p) = true)
    /\ forallb (entryConforms o') tbl = true
    /\ (forall k, ~ In k (map fst tbl) -> field o' k = field o k).
Proof.
  induction tbl as [|[p c] tbl IH]; intros Hnd Hwf o o' Hflat H.
  - injection H as <-. auto.
  - cbn [forEach] in H. cbn [map fst] in Hnd.
    apply nodupb_cons in Hnd. destruct Hnd as [Hp Hnd].
    cbn [forallb] in Hwf. apply andb_prop in Hwf. destruct Hwf as [Hwfp Hwf].
    unfold wfEntry in Hwfp. apply andb_prop in Hwfp.
    destruct Hwfp as [Hre Hwfp]. apply negb_true_iff in Hre.
    destruct (array_field_holder o "decisions") as [Hto Hoo];
      [apply Hflat; simpl; auto|].
    rewrite (holder_get o p Hto Hoo) in H. cbn [bind] in H.
    assert (Hmid : exists mid,
               forEach
                 (fun o (entry : string * NestedArrayConfig) =>
                    let (prop, config) := entry in
                    v <- get_prop o prop ;;
                    if truthy v then processPropertyArrays pna config o prop
                    else Ok o)
                 tbl mid = Ok o'
               /\ entryConforms mid (p, c) = true
               /\ (forall k, k <> p -> field mid k = field o k)
               /\ (forall q, In q FLOW_ARRAY_PROPERTIES ->
                              isArray (field mid q) = true)).
    { destruct (String.eqb_spec p "start") as [->|Hns].
      - destruct (truthy (field o "start")) eqn:Et.
        + destruct (processPropertyArrays pna c o "start") as [mid|] eqn:Em;
            cbn [bind] in H; [|discriminate].
          destruct (start_ok c o mid Hwfp Hre Et Em) as (H1 & H2 & H3 & H4).
          exists mid. split; [exact H|]. split; [|split; [exact H4|]].
          * unfold entryConforms. change ("start" =? "start") with true.
            now rewrite H1, H2, H3.
          * intros q Hq. rewrite H4; auto. intros ->.
            apply inb_In in Hq. rewrite start_not_flat in Hq. discriminate.
        + cbn [bind] in H. exists o. split; [exact H|]. split; auto.
          unfold entryConforms. change ("start" =? "start") with true.
          now rewrite Et.
      - apply andb_prop in Hwfp. destruct Hwfp as [Hin Hwfp].
        apply inb_In in Hin. pose proof (Hflat p Hin) as Harr.
        rewrite (isArray_truthy _ Harr) in H.
        destruct (processPropertyArrays pna c o p) as [mid|] eqn:Em;
          cbn [bind] in H; [|discriminate].
        destruct (processPropertyArrays_correct pna pna_inert c p Hwfp Hre)
          as [Hok _].
        destruct (Hok o mid Harr Em) as (H1 & H2 & H3).
        exists mid. split; [exact H|]. split; [|split; [exact H3|]].
        * unfold entryConforms.
          destruct (String.eqb_spec p "start"); [contradiction|]. exact H2.
        * intros q Hq. destruct (String.eqb_spec q p) as [->|Hne]; auto.
          rewrite H3; auto. }
    destruct Hmid as (mid & Hrest & Hconf & Hframe & Hflat').
    destruct (IH Hnd Hwf mid o' Hflat' Hrest) as (H1 & H2 & H3).
    split; [exact H1|]. split.
    + cbn [forallb]. rewrite H2, andb_true_r.
      unfold entryConforms in *. now rewrite (H3 p Hp).
    + intros k Hk. cbn [map fst] in Hk. rewrite H3 by (simpl in Hk; tauto).
      apply Hframe. simpl in Hk. intros ->. tauto.
Qed.

End StartNode.

Section TableFixed.

Variable pna : value -> result value.
Hypothesis pna_inert : inert pna.

Lemma table_fix (tbl : list (string * NestedArrayConfig)) :
  forallb wfEntry tbl = true ->
  forall o,
    (forall p, In p FLOW_ARRAY_PROPERTIES -> isArray (field o p) = true) ->
    forallb (entryConforms o) tbl = true ->
    forEach
      (fun o (entry : string * NestedArrayConfig) =>
         let (prop, config) := entry in
         v <- get_prop o prop ;;
         if truthy v then processPropertyArrays pna config o prop else Ok o)
      tbl o = Ok o.
Proof.
  induction tbl as [|[p c] tbl IH]; intros Hwf o Hflat Hconf; auto.
  cbn [forEach].
  cbn [forallb] in Hwf. apply andb_prop in Hwf. destruct Hwf as [Hwfp Hwf].
  unfold wfEntry in Hwfp. apply andb_prop in Hwfp.
  destruct Hwfp as [Hre Hwfp]. apply negb_true_iff in Hre.
  cbn [forallb] in Hconf. apply andb_prop in Hconf.
  destruct Hconf as [Hconfp Hconf].
  destruct (array_field_holder o "decisions") as [Hto Hoo];
    [apply Hflat; simpl; auto|].
  rewrite (holder_get o p Hto Hoo). cbn [bind].
  unfold entryConforms in Hconfp.
  destruct (String.eqb_spec p "start") as [->|Hns].
  - destruct (truthy (field o "start")) eqn:Et.
    + apply andb_prop in Hconfp. destruct Hconfp as [Ho Hc].
      rewrite (start_fix pna pna_inert c o Hwfp Hre Et Ho Hc). cbn [bind].
      now apply IH.
    + cbn [bind]. now apply IH.
  - apply andb_prop in Hwfp. destruct Hwfp as [Hin Hwfp].
    apply inb_In in Hin. pose proof (Hflat p Hin) as Harr.
    rewrite (isArray_truthy _ Harr).
    destruct (processPropertyArrays_correct pna pna_inert c p Hwfp Hre)
      as [_ Hfix].
    rewrite (Hfix o Harr Hconfp). cbn [bind]. now apply IH.
Qed.

End TableFixed.

Lemma wfTable_parts :
  nodupb (map fst NESTED_ARRAY_CONFIG) = true
  /\ forallb wfEntry NESTED_ARRAY_CONFIG = true.
Proof.
  pose proof wfTable_holds as H. unfold wfTable in H.
  now apply andb_prop in H.
Qed.

(** After a successful normalisation the document satisfies the invariant
    [flowConforms]: every flat array field is an array, and every element
    the Schema Table reaches through child arrays and nested configurations
    has all its declared fields as arrays. *)
Theorem ensureArrayProperties_conforms (flow flow' : value) :
  ensureArrayProperties flow = Ok flow' -> flowConforms flow' = true.
Proof.
  unfold ensureArrayProperties. intros H.
  destruct (forEach ensureArray FLOW_ARRAY_PROPERTIES flow) as [flow1|] eqn:E1;
    cbn [bind] in H; [|discriminate].
  apply ensureAll_spec in E1. destruct E1 as [Hflat _].
  unfold processNestedArrays in H. cbn [processNestedArrays_fuel] in H.
  unfold processNestedArrays_body at 1 in H.
  destruct (array_field_holder flow1 "decisions") as [Hto Hoo];
    [apply Hflat; simpl; auto|].
  rewrite Hto, Hoo in H. cbn [negb orb] in H.
  destruct wfTable_parts as [Hnd Hwf].
  destruct (table_ok _ (processNestedArrays_body_inert _) NESTED_ARRAY_CONFIG
              Hnd Hwf flow1 flow' Hflat H) as (H1 & H2 & _).
  unfold flowConforms. rewrite H2, andb_true_r.
  apply forallb_forall. exact H1.
Qed.

Lemma conforms_childArrays (c : NestedArrayConfig) (e : value)
    (child : string) :
  conforms c e = true -> In child (childArrays c) ->
  isArray (field e child) = true.
Proof.
  destruct c as [cas ncs rec]. cbn [conforms childArrays]. intros H Hin.
  apply andb_prop in H. destruct H as [H _].
  rewrite forallb_forall in H. auto.
Qed.

Lemma conforms_nested (c : NestedArrayConfig) (e : value) (p : string)
    (c' : NestedArrayConfig) (e' : value) :
  conforms c e = true -> In (p, c') (nestedConfig c) ->
  In e' (elements (field e p)) -> conforms c' e' = true.
Proof.
  destruct c as [cas ncs rec]. cbn [conforms nestedConfig]. intros H Hin He.
  apply andb_prop in H. destruct H as [_ H].
  rewrite forallb_forall in H. specialize (H _ Hin). cbn in H.
  rewrite forallb_forall in H. auto.
Qed.

Lemma flowConforms_reachable (flow : value) (c : NestedArrayConfig)
    (e : value) :
  flowConforms flow = true -> reachable false flow c e -> conforms c e = true.
Proof.
  unfold flowConforms. intros H Hr. apply andb_prop in H.
  destruct H as [_ H]. rewrite forallb_forall in H.
  induction Hr as [p c e Hin Hp He|c Hin Ht|c e p c' e' _ IH Hin He|];
    [| | |discriminate].
  - specialize (H _ Hin). unfold entryConforms in H.
    destruct (String.eqb_spec p "start"); [contradiction|].
    rewrite forallb_forall in H. auto.
  - specialize (H _ Hin). unfold entryConforms in H.
    change ("start" =? "start") with true in H. cbn iota in H.
    rewrite Ht in H. apply andb_prop in H. tauto.
  - eapply conforms_nested; eauto.
Qed.

(** In the words of the specification: after a successful normalisation
    every flat array field is an array, and so is every declared field of
    every element reached without following a recursive marker. *)
Theorem ensureArrayProperties_sequences (flow flow' : value) :
  ensureArrayProperties flow = Ok flow' -> sequenceInvariantTo false flow'.
Proof.
  intros H. apply ensureArrayProperties_conforms in H. split.
  - intros p Hp. unfold flowConforms in H. apply andb_prop in H.
    destruct H as [H _]. rewrite forallb_forall in H. auto.
  - intros c e child Hr Hin.
    eapply conforms_childArrays; eauto.
    eapply flowConforms_reachable; eauto.
Qed.

(** A document that satisfies the invariant is left as it is. *)
Theorem ensureArrayProperties_fixpoint (flow : value) :
  flowConforms flow = true -> ensureArrayProperties flow = Ok flow.
Proof.
  unfold flowConforms. intros H. apply andb_prop in H.
  destruct H as [Hflat Hconf]. rewrite forallb_forall in Hflat.
  unfold ensureArrayProperties.
  rewrite ensureAll_fix by exact Hflat. cbn [bind].
  unfold processNestedArrays. cbn [processNestedArrays_fuel].
  unfold processNestedArrays_body at 1.
  destruct (array_field_holder flow "decisions") as [Hto Hoo];
    [apply Hflat; simpl; auto|].
  rewrite Hto, Hoo. cbn [negb orb].
  destruct wfTable_parts as [_ Hwf].
  apply (table_fix _ (processNestedArrays_body_inert _)); auto.
Qed.

(** C3.  Normalisation is idempotent: a second [ensureArrayProperties] on
    the document the first one produced succeeds and returns that document
    unchanged, own property for own property and in the same order; and on
    any document that already satisfies the sequence invariant
    [ensureArrayProperties] changes nothing. *)
Theorem ensureArrayProperties_idempotent (flow flow' : value) :
  ensureArrayProperties flow = Ok flow' ->
  ensureArrayProperties flow' = Ok flow'
  /\ (forall doc, flowConforms doc = true ->
                  ensureArrayProperties doc = Ok doc).
Proof.
  intros H. split.
  - apply ensureArrayProperties_fixpoint.
    now apply ensureArrayProperties_conforms with flow.
  - apply ensureArrayProperties_fixpoint.
Qed.

Lemma ensureArrayProperties_idempotent_witness :
  ensureArrayProperties scenario = Ok scenarioNormalised
  /\ (ensureArrayProperties scenarioNormalised = Ok scenarioNormalised
      /\ (forall doc, flowConforms doc = true ->
                      ensureArrayProperties doc = Ok doc)).
Proof.
  split; [reflexivity|].
  apply (ensureArrayProperties_idempotent scenario). reflexivity.
Defined.

(** The scenario of the specification: the decision and its rule both end
    up in one-element arrays. *)
Example scenario_normalised :
  ensureArrayProperties scenario = Ok scenarioNormalised
  /\ elements (field scenarioNormalised "decisions")
     = [obj [("name", VStr "D1");
             ("rules", arr [obj [("name", VStr "R1");
                                 ("conditions", arr [])]])]].
Proof. split; reflexivity. Qed.

(* ================================================================== *)
(** * The normalisation stays within the embedding                     *)
(* ================================================================== *)








Section Limits.

Variable pna : value -> result value.
Hypothesis pna_inert : inert pna.




End Limits.




(** ** Two unfoldings of the recursion are enough *)

Lemma forEach_ext {A S : Type} (f g : S -> A -> result S) (l : list A)
    (s : S) :
  (forall s a, In a l -> f s a = g s a) -> forEach f l s = forEach g l s.
Proof.
  revert s. induction l as [|a l IH]; intros s H; simpl; auto.
  rewrite H by (simpl; auto). destruct (g s a); simpl; auto.
  apply IH. intros; apply H; simpl; auto.
Qed.

Lemma mapM_ext {A B : Type} (f g : A -> result B) (l : list A) :
  (forall a, In a l -> f a = g a) -> mapM f l = mapM g l.
Proof.
  induction l as [|a l IH]; intros H; simpl; auto.
  rewrite H by (simpl; auto). rewrite IH; auto.
  intros; apply H; simpl; auto.
Qed.

Lemma bind_ext {A B : Type} (m : result A) (k k' : A -> result B) :
  (forall a, m = Ok a -> k a = k' a) -> bind m k = bind m k'.
Proof. destruct m; simpl; auto. Qed.

Section Fuel.

Variables pna1 pna2 : value -> result value.
Hypothesis pna1_inert : inert pna1.
Hypothesis pna2_inert : inert pna2.

Lemma reprocess_ext (prop r : string) (it : value) :
  inb prop topKeys = false ->
  reprocess pna1 prop r it = reprocess pna2 prop r it.
Proof.
  intros Hp. unfold reprocess. destruct (r =? ""); auto.
  apply bind_ext. intros x _. destruct (truthy x); auto.
  apply bind_ext. intros len _. apply bind_ext. intros pos _.
  destruct pos; auto. now rewrite pna1_inert, pna2_inert.
Qed.

Lemma processPropertyArrays_ext (c : NestedArrayConfig) :
  forall prop o,
    reentrant prop c = false ->
    processPropertyArrays pna1 c o prop = processPropertyArrays pna2 c o prop.
Proof.
  induction c as [cas ncs rec HF] using config_induction.
  intros prop o Hre.
  cbn [reentrant] in Hre. apply orb_false_elim in Hre.
  destruct Hre as [Hre1 Hre2].
  assert (Hnested : forall o', nestedEach pna1 ncs o' = nestedEach pna2 ncs o').
  { intros o'. unfold nestedEach. apply forEach_ext. intros s [p c'] Hin.
    apply bind_ext. intros v _. destruct (truthy v); auto.
    rewrite Forall_forall in HF. apply (HF _ Hin).
    destruct (reentrant p c') eqn:Er; auto.
    assert (existsb
              (fun entry : string * NestedArrayConfig =>
                 let (p, c') := entry in reentrant p c') ncs = true);
      [|congruence].
    apply existsb_exists. exists (p, c'). auto. }
  rewrite !processPropertyArrays_unfold. cbn [childArrays nestedConfig].
  apply bind_ext. intros s _.
  destruct ((prop =? "start") && truthy s && typeof_object s).
  - apply bind_ext. intros s1 _. now rewrite Hnested.
  - apply bind_ext. intros obj1 _. apply bind_ext. intros a _.
    destruct a as [| |b|z| |str|items own|ps]; auto.
    destruct items as [|i items]; auto.
    f_equal. apply mapM_ext. intros it _. unfold processItem.
    cbn [childArrays nestedConfig recursive].
    apply bind_ext. intros item1 _. rewrite Hnested.
    apply bind_ext. intros item2 _.
    destruct rec as [r|]; auto. now apply reprocess_ext.
Qed.

Lemma processNestedArrays_body_ext (o : value) :
  processNestedArrays_body pna1 o = processNestedArrays_body pna2 o.
Proof.
  unfold processNestedArrays_body.
  destruct (negb (truthy o) || negb (typeof_object o)); auto.
  apply forEach_ext. intros s [p c] Hin.
  apply bind_ext. intros v _. destruct (truthy v); auto.
  apply processPropertyArrays_ext.
  destruct wfTable_parts as [_ Hwf]. rewrite forallb_forall in Hwf.
  specialize (Hwf _ Hin). unfold wfEntry in Hwf.
  apply andb_prop in Hwf. now apply negb_true_iff.
Qed.

End Fuel.

(** More fuel than [processNestedArrays] takes changes nothing. *)
Theorem processNestedArrays_fuel_enough (n : nat) (o : value) :
  processNestedArrays_fuel (2 + n) o = processNestedArrays o.
Proof.
  unfold processNestedArrays. cbn [plus processNestedArrays_fuel].
  apply processNestedArrays_body_ext; apply processNestedArrays_body_inert.
Qed.


(* ================================================================== *)
(** * The recursive marker                                             *)
(* ================================================================== *)

(** C2.  The recursive step has no effect.  The synthetic context it builds
    for a field group under [fields] has the single key [fields], which is
    not a key of the Schema Table, so [processNestedArrays] returns it
    untouched whatever the nested value [x] is; processing a field group
    therefore comes down to the five coercions on the group itself and
    reaches nothing below it.  In [deepFields] the outer field group gets
    its [fields] wrapped into an array, and the inner field group, at depth
    two, is returned as it was, its [fields] a bare object. *)
Theorem recursive_step_is_noop :
  (forall fuel x,
      processNestedArrays_fuel (S fuel) (tempObj "fields" "fields" x)
      = Ok (tempObj "fields" "fields" x))
  /\ (forall fuel group,
        processItem (processNestedArrays_fuel (S fuel)) "fields" fieldsConfig
                    group
        = forEach ensureArray (childArrays fieldsConfig) group)
  /\ exists flow',
       ensureArrayProperties deepFields = Ok flow'
       /\ field (item 0 (field (item 0 (field flow' "screens")) "fields"))
                "fields"
          = arr [deepFieldsInner]
       /\ isArray (field deepFieldsInner "fields") = false.
Proof.
  split; [|split].
  - intros fuel x. now apply processNestedArrays_fuel_inert.
  - intros fuel group. unfold processItem.
    cbn [childArrays nestedConfig recursive fieldsConfig].
    destruct (forEach ensureArray
                ["fields"; "choiceReferences"; "inputParameters";
                 "outputParameters"; "dataTypeMappings"] group)
      as [group1|e] eqn:E; [|reflexivity].
    cbn [bind]. unfold nestedEach. cbn [forEach bind].
    apply reprocess_inert; [apply processNestedArrays_fuel_inert|reflexivity|].
    apply ensureAll_spec in E. destruct E as [E _]. apply E. simpl. auto.
  - eexists. split; [vm_compute; reflexivity|]. split; reflexivity.
Qed.

(** C1.  The sequence invariant fails on the normalised [deepFields]: the
    inner field group is reached through the recursive marker of the
    [fields] entry, which declares [fields] and [inputParameters] as child
    arrays, yet its [fields] is a bare object and its [inputParameters] is
    absent. *)
Theorem sequence_invariant_broken_below_recursive_marker :
  exists flow',
    ensureArrayProperties deepFields = Ok flow'
    /\ reachable true flow' fieldsConfig deepFieldsInner
    /\ In "fields" (childArrays fieldsConfig)
    /\ field deepFieldsInner "fields" = obj [("name", VStr "leaf")]
    /\ In "inputParameters" (childArrays fieldsConfig)
    /\ field deepFieldsInner "inputParameters" = VUndef
    /\ ~ sequenceInvariant flow'.
Proof.
  eexists. split; [vm_compute; reflexivity|].
  match goal with |- reachable _ ?f _ _ /\ _ => set (flow' := f) end.
  assert (Hr : reachable true flow' fieldsConfig deepFieldsInner).
  { eapply reach_recursive with (r := "fields"); [reflexivity| |reflexivity|].
    - eapply reach_nested with (p := "fields") (c := screensConfig).
      + eapply reach_collection with (p := "screens").
        * simpl. right. left. reflexivity.
        * discriminate.
        * simpl. left. reflexivity.
      + simpl. right. right. left. reflexivity.
      + simpl. left. reflexivity.
    - simpl. left. reflexivity. }
  repeat split; auto.
  - simpl. auto.
  - simpl. auto.
  - intros [_ Hinv].
    specialize (Hinv fieldsConfig deepFieldsInner "fields" Hr).
    simpl in Hinv. specialize (Hinv (or_introl eq_refl)). discriminate.
Qed.

(* ================================================================== *)
(** * [sortByName]                                                     *)
(* ================================================================== *)

Section SortByName.

Variable localeCompare : string -> string -> Z.

(** A consistent comparator in the sense of ECMAScript: swapping the
    arguments flips the sign, and the order is transitive. *)
Hypothesis localeCompare_antisym :
  forall a b, Z.sgn (localeCompare b a) = (- Z.sgn (localeCompare a b))%Z.
Hypothesis localeCompare_trans :
  forall a b c,
    (localeCompare a b <= 0)%Z -> (localeCompare b c <= 0)%Z ->
    (localeCompare a c <= 0)%Z.


Lemma localeCompare_total (a b : string) :
  (localeCompare a b <= 0)%Z \/ (localeCompare b a <= 0)%Z.
Proof. pose proof (localeCompare_antisym a b). lia. Qed.

Lemma localeCompare_zero_sym (a b : string) :
  localeCompare a b = 0%Z -> localeCompare b a = 0%Z.
Proof. pose proof (localeCompare_antisym a b). lia. Qed.

Lemma insert_perm (x : keyed) (l : list keyed) :
  Permutation (insert localeCompare x l) (x :: l).
Proof.
  induction l as [|y l IH]; simpl; auto.
  destruct (localeCompare (fst x) (fst y) <=? 0)%Z; auto.
  rewrite IH. apply perm_swap.
Qed.

Lemma stableSort_perm (l : list keyed) :
  Permutation (stableSort localeCompare l) l.
Proof.
  induction l as [|x l IH]; simpl; auto.
  rewrite insert_perm. now constructor.
Qed.

Lemma insert_sorted (x : keyed) (l : list keyed) :
  StronglySorted (keyedLe localeCompare) l ->
  StronglySorted (keyedLe localeCompare) (insert localeCompare x l).
Proof.
  induction l as [|y l IH]; simpl; intros Hs.
  - repeat constructor.
  - inversion Hs as [|? ? Hl Hy]; subst.
    destruct (localeCompare (fst x) (fst y) <=? 0)%Z eqn:E.
    + apply Z.leb_le in E. constructor; auto. constructor; auto.
      eapply Forall_impl; [|exact Hy]. intros z Hz. unfold keyedLe in *.
      eapply localeCompare_trans; eauto.
    + apply Z.leb_gt in E. constructor; auto.
      apply Forall_forall. intros z Hz.
      apply (Permutation_in _ (insert_perm x l)) in Hz.
      destruct Hz as [<-|Hz].
      * unfold keyedLe. destruct (localeCompare_total (fst x) (fst y)); lia.
      * rewrite Forall_forall in Hy. auto.
Qed.

Lemma stableSort_sorted (l : list keyed) :
  StronglySorted (keyedLe localeCompare) (stableSort localeCompare l).
Proof.
  induction l as [|x l IH]; simpl; [constructor|]. now apply insert_sorted.
Qed.

(** Inserting an element leaves every class of equal names in its order,
    the new element in front. *)
Lemma insert_same (k : string) (x : keyed) (l : list keyed) :
  filter (sameKey localeCompare k) (insert localeCompare x l)
  = filter (sameKey localeCompare k) (x :: l).
Proof.
  induction l as [|y l IH]; auto.
  cbn [insert].
  destruct (localeCompare (fst x) (fst y) <=? 0)%Z eqn:E; auto.
  apply Z.leb_gt in E.
  cbn [filter] in *. rewrite IH.
  destruct (sameKey localeCompare k x) eqn:Ex; auto.
  destruct (sameKey localeCompare k y) eqn:Ey; auto.
  exfalso. unfold sameKey in *. apply Z.eqb_eq in Ex, Ey.
  apply localeCompare_zero_sym in Ey.
  assert (localeCompare (fst x) (fst y) <= 0)%Z; [|lia].
  apply localeCompare_trans with k; lia.
Qed.

Lemma stableSort_stable (k : string) (l : list keyed) :
  filter (sameKey localeCompare k) (stableSort localeCompare l)
  = filter (sameKey localeCompare k) l.
Proof.
  induction l as [|x l IH]; auto.
  cbn [stableSort]. rewrite insert_same. cbn [filter]. now rewrite IH.
Qed.

(** ** From keyed pairs back to elements *)

Lemma nameKey_keyOf (a : value) :
  namedElement a = true -> nameKey a = Ok (keyOf a).
Proof.
  unfold namedElement, nameKey, keyOf, field.
  destruct a as [| |b|z| |s|es ps|ps]; try discriminate. simpl.
  destruct (lookup "name" ps) as [| |b|z| |s|es' ps'|ps']; try discriminate;
    auto.
  simpl. destruct s; auto.
Qed.

Lemma keyed_defined (es : list value) :
  Forall (fun a => namedElement a = true) es ->
  filter (fun e => negb (isUndefined e)) es = es
  /\ filter isUndefined es = [].
Proof.
  induction 1 as [|a es Ha _ [IH1 IH2]]; auto.
  simpl. destruct a; try discriminate. simpl. now rewrite IH1, IH2.
Qed.

Lemma mapM_keys (es : list value) :
  Forall (fun a => namedElement a = true) es ->
  mapM (fun e => k <- nameKey e ;; Ok (k, e)) es
  = Ok (map (fun e => (keyOf e, e)) es).
Proof.
  induction 1 as [|a es Ha _ IH]; auto.
  cbn [mapM map]. rewrite (nameKey_keyOf _ Ha). cbn [bind].
  now rewrite IH.
Qed.

Lemma wellKeyed_filter (p : string -> bool) (l : list keyed) :
  Forall wellKeyed l ->
  map snd (filter (fun x => p (fst x)) l)
  = filter (fun e => p (keyOf e)) (map snd l).
Proof.
  induction 1 as [|x l Hx _ IH]; auto.
  cbn [filter map]. rewrite <- Hx.
  destruct (p (fst x)); cbn [map]; now rewrite IH.
Qed.

Lemma wellKeyed_sorted (l : list keyed) :
  Forall wellKeyed l ->
  StronglySorted (keyedLe localeCompare) l ->
  StronglySorted
    (fun a b => (localeCompare (keyOf a) (keyOf b) <= 0)%Z) (map snd l).
Proof.
  intros Hk Hs. induction Hs as [|x l Hs IH Hx]; simpl; constructor.
  - apply IH. now inversion Hk.
  - inversion Hk as [|? ? Hkx Hkl]; subst.
    apply Forall_forall. intros b Hb. apply in_map_iff in Hb.
    destruct Hb as [y [<- Hy]].
    rewrite Forall_forall in Hx, Hkl.
    rewrite <- Hkx, <- (Hkl y Hy). now apply Hx.
Qed.

Lemma map_keyed_wellKeyed (es : list value) :
  Forall wellKeyed (map (fun e => (keyOf e, e)) es).
Proof. apply Forall_forall. intros x Hx. apply in_map_iff in Hx.
  destruct Hx as [e [<- _]]. reflexivity. Qed.

Lemma map_snd_keyed (es : list value) :
  map snd (map (fun e => (keyOf e, e)) es) = es.
Proof. rewrite map_map. simpl. apply map_id. Qed.

(** On an array of named elements [sortElements] returns a stable sorted
    rearrangement. *)
Lemma sortElements_spec (es : list value) :
  Forall (fun a => namedElement a = true) es ->
  exists es',
    sortElements localeCompare es = Ok es'
    /\ Permutation es es'
    /\ StronglySorted
         (fun a b => (localeCompare (keyOf a) (keyOf b) <= 0)%Z) es'
    /\ (forall k,
          filter (fun e => (localeCompare (keyOf e) k =? 0)%Z) es'
          = filter (fun e => (localeCompare (keyOf e) k =? 0)%Z) es).
Proof.
  intros Hn. unfold sortElements.
  destruct (keyed_defined es Hn) as [-> ->]. rewrite !app_nil_r.
  destruct (List.length es <? 2)%nat eqn:El.
  - exists es. repeat split; auto.
    apply Nat.ltb_lt in El.
    destruct es as [|a [|b es]]; simpl in El; try lia; repeat constructor.
  - rewrite (mapM_keys es Hn). cbn [bind]. rewrite app_nil_r.
    set (ks := map (fun e => (keyOf e, e)) es).
    assert (Hks : Forall wellKeyed (stableSort localeCompare ks)).
    { apply Forall_forall. intros x Hx.
      apply (Permutation_in _ (stableSort_perm ks)) in Hx.
      pose proof (map_keyed_wellKeyed es) as Hw.
      rewrite Forall_forall in Hw. auto. }
    eexists. split; [reflexivity|]. repeat split.
    + rewrite <- (map_snd_keyed es) at 1. apply Permutation_map.
      symmetry. apply stableSort_perm.
    + apply wellKeyed_sorted; auto. apply stableSort_sorted.
    + intros k.
      transitivity
        (map snd (filter (sameKey localeCompare k)
                         (stableSort localeCompare ks))).
      { symmetry.
        exact (wellKeyed_filter (fun s => (localeCompare s k =? 0)%Z) _ Hks). }
      rewrite stableSort_stable.
      rewrite <- (map_snd_keyed es) at 1.
      exact (wellKeyed_filter (fun s => (localeCompare s k =? 0)%Z) _
               (map_keyed_wellKeyed es)).
Qed.

End SortByName.

Lemma sorted_before {A : Type} (R : A -> A -> Prop) (l1 : list A) (a : A)
    (l2 : list A) :
  StronglySorted R (l1 ++ a :: l2) -> Forall (R a) l2.
Proof.
  induction l1 as [|x l1 IH]; simpl; intros H; inversion H; subst; auto.
Qed.

(** C5.  For a consistent collation and an array of named elements,
    [sortByName] returns a new array that is a rearrangement of the input
    in which every adjacent pair [(a, b)] satisfies
    [compare(a.name ?? "", b.name ?? "") <= 0]; the key the comparator uses
    for an element is its name, the empty string when the name is missing
    or empty, so that no element whose name sorts after the empty string
    comes before a nameless one; and for every name the elements comparing
    equal to it appear in the output in their input order. *)
Theorem sortByName_sorted_stable
    (localeCompare : string -> string -> Z)
    (localeCompare_antisym :
       forall a b,
         Z.sgn (localeCompare b a) = (- Z.sgn (localeCompare a b))%Z)
    (localeCompare_trans :
       forall a b c,
         (localeCompare a b <= 0)%Z -> (localeCompare b c <= 0)%Z ->
         (localeCompare a c <= 0)%Z)
    (es : list value) (own : props) :
  Forall (fun a => namedElement a = true) es ->
  exists es',
    sortByName localeCompare (VArr es own) = Ok (VArr es' [])
    /\ Permutation es es'
    /\ (forall l1 a b l2,
          es' = l1 ++ a :: b :: l2 ->
          (localeCompare (keyOf a) (keyOf b) <= 0)%Z)
    /\ (forall a, In a es -> nameKey a = Ok (keyOf a))
    /\ (forall l1 a l2 b l3,
          es' = l1 ++ a :: l2 ++ b :: l3 -> nameless b = true ->
          (localeCompare (keyOf a) "" <= 0)%Z)
    /\ (forall k,
          filter (fun e => (localeCompare (keyOf e) k =? 0)%Z) es'
          = filter (fun e => (localeCompare (keyOf e) k =? 0)%Z) es).
Proof.
  intros Hn.
  destruct (sortElements_spec localeCompare localeCompare_antisym
              localeCompare_trans es Hn) as (es' & He & Hp & Hs & Hst).
  exists es'. unfold sortByName. cbn [truthy isArray negb orb elements].
  rewrite He. cbn [bind]. split; [reflexivity|]. split; [exact Hp|].
  split; [|split; [|split; [|exact Hst]]].
  - intros l1 a b l2 ->. apply sorted_before in Hs.
    now inversion Hs.
  - intros a Ha. apply nameKey_keyOf. rewrite Forall_forall in Hn. auto.
  - intros l1 a l2 b l3 -> Hb. apply sorted_before in Hs.
    rewrite Forall_forall in Hs. unfold nameless in Hb.
    apply String.eqb_eq in Hb. rewrite <- Hb. apply Hs.
    apply in_or_app. right. simpl. auto.
Qed.

Lemma codeUnitCompare_antisym (a b : string) :
  Z.sgn (codeUnitCompare b a) = (- Z.sgn (codeUnitCompare a b))%Z.
Proof.
  unfold codeUnitCompare. rewrite (String.compare_antisym b a).
  now destruct (String.compare a b).
Qed.

Lemma codeUnitCompare_le (a b : string) :
  (codeUnitCompare a b <= 0)%Z <-> a = b \/ String_as_OT.lt a b.
Proof.
  unfold codeUnitCompare.
  pose proof (String_as_OT.cmp_eq a b) as He.
  pose proof (String_as_OT.cmp_lt a b) as Hl.
  unfold String_as_OT.cmp in *.
  destruct (String.compare a b); split; intros H; try lia; try tauto.
  destruct H as [H|H]; [apply He in H|apply Hl in H]; discriminate.
Qed.

Lemma codeUnitCompare_trans (a b c : string) :
  (codeUnitCompare a b <= 0)%Z -> (codeUnitCompare b c <= 0)%Z ->
  (codeUnitCompare a c <= 0)%Z.
Proof.
  rewrite !codeUnitCompare_le. intros [->|H1] [->|H2]; auto.
  right. eapply String_as_OT.lt_trans; eauto.
Qed.

Lemma sortByName_sorted_stable_witness :
  Forall (fun a => namedElement a = true) (elements sampleArray)
  /\ exists es',
       sortByName codeUnitCompare sampleArray = Ok (VArr es' [])
       /\ Permutation (elements sampleArray) es'
       /\ (forall l1 a b l2,
             es' = l1 ++ a :: b :: l2 ->
             (codeUnitCompare (keyOf a) (keyOf b) <= 0)%Z)
       /\ (forall a, In a (elements sampleArray) -> nameKey a = Ok (keyOf a))
       /\ (forall l1 a l2 b l3,
             es' = l1 ++ a :: l2 ++ b :: l3 -> nameless b = true ->
             (codeUnitCompare (keyOf a) "" <= 0)%Z)
       /\ (forall k,
             filter (fun e => (codeUnitCompare (keyOf e) k =? 0)%Z) es'
             = filter (fun e => (codeUnitCompare (keyOf e) k =? 0)%Z)
                      (elements sampleArray)).
Proof.
  assert (H : Forall (fun a => namedElement a = true) (elements sampleArray))
    by (repeat constructor).
  split; [exact H|].
  exact (sortByName_sorted_stable codeUnitCompare codeUnitCompare_antisym
           codeUnitCompare_trans (elements sampleArray) [] H).
Defined.

(* ================================================================== *)
(** * Degenerate arguments of the ordering functions                   *)
(* ================================================================== *)

(** C10.  [sortByName] returns [null], [undefined] and every other value
    that is not an array unchanged, and [sortFlowArrays] returns [null] and
    [undefined] unchanged; neither throws, whatever the collation. *)
Theorem sort_degenerate_input (localeCompare : string -> string -> Z) :
  sortByName localeCompare VNull = Ok VNull
  /\ sortByName localeCompare VUndef = Ok VUndef
  /\ (forall v,
        match v with
        | VArr _ _ => True
        | _ => sortByName localeCompare v = Ok v
        end)
  /\ sortFlowArrays localeCompare VNull = Ok VNull
  /\ sortFlowArrays localeCompare VUndef = Ok VUndef.
Proof.
  repeat split.
  intros v. destruct v as [| |b|z| |s|es ps|ps]; try exact I;
    unfold sortByName; simpl; try reflexivity.
  - now destruct b.
  - now destruct (z =? 0)%Z.
  - now destruct (s =? "").
Qed.

(* ================================================================== *)
(** * [sortFlowArrays] and the nested sort configuration               *)
(* ================================================================== *)

(** C4.  [sortFlowArrays] never consults [NESTED_SORT_CONFIG]: on
    [nestedUnsorted] it returns, for every collation, a document in which
    the rules of the decision and the fields and actions of the screen are
    in their input order, whereas [sortByName] under the code-unit
    collation puts the rules in the order [a], [b]. *)
Theorem sortFlowArrays_leaves_nested_unsorted :
  (forall localeCompare,
      sortFlowArrays localeCompare nestedUnsorted = Ok nestedUnsorted)
  /\ field (item 0 (field nestedUnsorted "decisions")) "rules" = rulesBA
  /\ sortByName codeUnitCompare rulesBA
     = Ok (arr [obj [("name", VStr "a")]; obj [("name", VStr "b")]]).
Proof.
  repeat split.
Qed.
(* ================================================================== *)
(** * [getConnectors]                                                  *)
(* ================================================================== *)

Lemma mapM_ok_map {A B : Type} (f : A -> result B) (g : A -> B) (l : list A) :
  (forall a b, In a l -> f a = Ok b -> b = g a) ->
  forall bs, mapM f l = Ok bs -> bs = map g l.
Proof.
  induction l as [|a l IH]; simpl; intros Hf bs H.
  - now inversion H.
  - destruct (f a) as [b|] eqn:Ea; simpl in H; [|discriminate].
    destruct (mapM f l) as [bs'|] eqn:El; simpl in H; [|discriminate].
    inversion H; subst. f_equal; eauto.
Qed.

Lemma filter_truthy_flat_map (xs : list value) :
  filter truthy (map (fun x => field x "connector") xs)
  = flat_map (fun x => setSlot x "connector") xs.
Proof.
  induction xs as [|x xs IH]; simpl; auto.
  unfold setSlot at 1.
  destruct (truthy (field x "connector")); simpl; now rewrite IH.
Qed.

Lemma connectorsOf_setIn (node : value) (slot : string) (cs : list value) :
  connectorsOf node slot = Ok cs -> filter truthy cs = setIn node slot.
Proof.
  unfold connectorsOf, setIn. intros H.
  destruct (get_prop node slot) as [xs|] eqn:E; simpl in H; [|discriminate].
  rewrite (get_prop_ok_field _ _ _ E).
  destruct xs; simpl in H; try (inversion H; subst; reflexivity).
  simpl. rewrite <- filter_truthy_flat_map. f_equal.
  eapply mapM_ok_map; [|exact H].
  intros a b _ Hab. symmetry. now apply get_prop_ok_field.
Qed.

Lemma filter_single_setSlot (node : value) (slot : string) (c : value) :
  get_prop node slot = Ok c -> filter truthy [c] = setSlot node slot.
Proof.
  intros H. apply get_prop_ok_field in H. subst c.
  unfold setSlot. simpl. now destruct (truthy (field node slot)).
Qed.

Lemma getConnectors_layout (node : value) (cs : list value) :
  getConnectors node = Ok cs -> cs = allConnectors node.
Proof.
  unfold getConnectors, allConnectors. intros H.
  destruct (get_prop node "connector") as [c1|] eqn:E1; cbn [bind] in H;
    [|discriminate].
  destruct (get_prop node "defaultConnector") as [c2|] eqn:E2;
    cbn [bind] in H; [|discriminate].
  destruct (get_prop node "nextValueConnector") as [c3|] eqn:E3;
    cbn [bind] in H; [|discriminate].
  destruct (get_prop node "noMoreValuesConnector") as [c4|] eqn:E4;
    cbn [bind] in H; [|discriminate].
  destruct (get_prop node "faultConnector") as [c5|] eqn:E5;
    cbn [bind] in H; [|discriminate].
  destruct (connectorsOf node "rules") as [rs|] eqn:Er; cbn [bind] in H;
    [|discriminate].
  destruct (connectorsOf node "scheduledPaths") as [ps|] eqn:Ep;
    cbn [bind] in H; [|discriminate].
  destruct (connectorsOf node "waitEvents") as [ws|] eqn:Ew;
    cbn [bind] in H; [|discriminate].
  assert (Hcs : cs = filter truthy
                      ([c1] ++ [c2] ++ [c3] ++ [c4] ++ [c5]
                       ++ rs ++ ps ++ ws))
    by (injection H; intros <-; reflexivity).
  clear H. subst cs. rewrite !filter_app.
  rewrite (filter_single_setSlot _ _ _ E1), (filter_single_setSlot _ _ _ E2),
    (filter_single_setSlot _ _ _ E3), (filter_single_setSlot _ _ _ E4),
    (filter_single_setSlot _ _ _ E5).
  now rewrite (connectorsOf_setIn _ _ _ Er), (connectorsOf_setIn _ _ _ Ep),
    (connectorsOf_setIn _ _ _ Ew).
Qed.

Lemma setSlot_truthy (holder : value) (slot : string) :
  Forall (fun c => truthy c = true) (setSlot holder slot).
Proof.
  unfold setSlot. destruct (truthy (field holder slot)) eqn:E; auto.
Qed.

Lemma setIn_truthy (node : value) (slot : string) :
  Forall (fun c => truthy c = true) (setIn node slot).
Proof.
  unfold setIn. induction (elements (field node slot)) as [|x xs IH];
    simpl; auto.
  apply Forall_app. split; auto. apply setSlot_truthy.
Qed.

Lemma allConnectors_truthy (node : value) :
  Forall (fun c => truthy c = true) (allConnectors node).
Proof.
  unfold allConnectors.
  repeat (apply Forall_app; split);
    auto using setSlot_truthy, setIn_truthy.
Qed.

(** C6.  Whenever [getConnectors] returns, its result is exactly: the
    direct connector, the default connector, the next-value connector, the
    no-more-values connector and the fault connector, each present when set
    and left out when not, then the set connectors of the rules in rule
    order, of the scheduled paths in path order and of the wait events in
    event order.  No entry of the result is [null], [undefined] or any other
    falsy placeholder. *)
Theorem getConnectors_fixed_order (node : value) (cs : list value) :
  getConnectors node = Ok cs ->
  cs = setSlot node "connector"
       ++ setSlot node "defaultConnector"
       ++ setSlot node "nextValueConnector"
       ++ setSlot node "noMoreValuesConnector"
       ++ setSlot node "faultConnector"
       ++ setIn node "rules"
       ++ setIn node "scheduledPaths"
       ++ setIn node "waitEvents"
  /\ Forall (fun c => truthy c = true) cs.
Proof.
  intros H. apply getConnectors_layout in H. subst cs.
  split; [reflexivity|apply allConnectors_truthy].
Qed.

Lemma getConnectors_fixed_order_witness :
  getConnectors sampleDecision
  = Ok [connector "Otherwise"; connector "Then"]
  /\ ([connector "Otherwise"; connector "Then"]
      = setSlot sampleDecision "connector"
        ++ setSlot sampleDecision "defaultConnector"
        ++ setSlot sampleDecision "nextValueConnector"
        ++ setSlot sampleDecision "noMoreValuesConnector"
        ++ setSlot sampleDecision "faultConnector"
        ++ setIn sampleDecision "rules"
        ++ setIn sampleDecision "scheduledPaths"
        ++ setIn sampleDecision "waitEvents"
      /\ Forall (fun c => truthy c = true)
                [connector "Otherwise"; connector "Then"]).
Proof.
  split; [reflexivity|].
  apply (getConnectors_fixed_order sampleDecision). reflexivity.
Defined.

(* ================================================================== *)
(** * [reparentNode]                                                   *)
(* ================================================================== *)

(** ** Connectors *)

Lemma get_prop_nonnullish (h : value) (k : string) :
  nullish h = false -> get_prop h k = Ok (field h k).
Proof. unfold field. destruct h; simpl; try discriminate; auto. Qed.

Lemma targets_holder (name : string) (c : value) :
  targets name c = true ->
  lookup "targetReference"
         (match c with VObj ps | VArr _ ps => ps | _ => [] end) = VStr name
  /\ (exists ps, c = VObj ps) \/ (exists es ps, c = VArr es ps).
Proof.
  unfold targets.
  destruct c as [| |b|z| |s|es ps|ps]; simpl; try discriminate.
  - destruct (lookup "targetReference" ps) eqn:E; simpl; try discriminate.
    intros H. apply String.eqb_eq in H. subst. eauto.
  - destruct (lookup "targetReference" ps) eqn:E; simpl; try discriminate.
    intros H. apply String.eqb_eq in H. subst. eauto.
Qed.

Lemma targets_set (source target : string) (c : value) :
  targets source c = true ->
  exists c',
    set_prop c "targetReference" (VStr target) = Ok c'
    /\ targets target c' = true
    /\ truthy c' = true
    /\ typeof_object c' = true
    /\ (source = target -> c' = c).
Proof.
  unfold targets.
  destruct c as [| |b|z| |s|es ps|ps]; simpl; try discriminate.
  - destruct (lookup "targetReference" ps) eqn:E; simpl; try discriminate.
    intros H. apply String.eqb_eq in H. subst.
    eexists. split; [reflexivity|]. simpl.
    rewrite lookup_update_same. simpl. rewrite String.eqb_refl.
    repeat split; auto. intros <-. rewrite <- E.
    rewrite update_lookup_id; auto. apply lookup_defined_in. congruence.
  - destruct (lookup "targetReference" ps) eqn:E; simpl; try discriminate.
    intros H. apply String.eqb_eq in H. subst.
    eexists. split; [reflexivity|]. simpl.
    rewrite lookup_update_same. simpl. rewrite String.eqb_refl.
    repeat split; auto. intros <-. rewrite <- E.
    rewrite update_lookup_id; auto. apply lookup_defined_in. congruence.
Qed.

Lemma targets_unique (a b : string) (c : value) :
  targets a c = true -> targets b c = true -> a = b.
Proof.
  unfold targets. destruct (get_prop c "targetReference") as [t|];
    [|discriminate].
  destruct t; simpl; try discriminate.
  intros H1 H2. apply String.eqb_eq in H1, H2. congruence.
Qed.

Lemma retargeted_truthy (source target : string) (c : value) :
  truthy (retargeted source target c) = truthy c.
Proof.
  unfold retargeted. destruct (truthy c) eqn:Et; auto. cbn [andb].
  destruct (targets source c) eqn:E; auto.
  destruct (targets_set source target c E) as (c' & Hs & _ & Ht & _).
  unfold withTarget. now rewrite Hs.
Qed.

(** A connector to [source] leads to [target] afterwards. *)
Lemma retargeted_targets (source target : string) (c : value) :
  truthy c = true -> targets source c = true ->
  targets target (retargeted source target c) = true.
Proof.
  intros Ht E. unfold retargeted. rewrite Ht, E. cbn [andb].
  destruct (targets_set source target c E) as (c' & Hs & Hc' & _).
  unfold withTarget. now rewrite Hs.
Qed.

(** Any other connector is left as it is. *)
Lemma retargeted_other (source target : string) (c : value) :
  targets source c = false -> retargeted source target c = c.
Proof. intros E. unfold retargeted. now rewrite E, andb_false_r. Qed.

Lemma retargeted_idempotent (source target : string) (c : value) :
  retargeted source target (retargeted source target c)
  = retargeted source target c.
Proof.
  destruct (truthy c && targets source c) eqn:E.
  - pose proof E as E0. apply andb_prop in E. destruct E as [Ht E].
    destruct (targets_set source target c E) as (c' & Hs & Hc' & Ht' & _ & Heq).
    assert (Hr : retargeted source target c = c').
    { unfold retargeted. rewrite E0. unfold withTarget. now rewrite Hs. }
    rewrite Hr. destruct (targets source c') eqn:E'.
    + assert (source = target) as <- by (eapply targets_unique; eauto).
      rewrite (Heq eq_refl) in *. exact Hr.
    + now apply retargeted_other.
  - assert (Hr : retargeted source target c = c).
    { unfold retargeted. now rewrite E. }
    now rewrite !Hr.
Qed.

Lemma map_retargeted_id (source target : string) (cs : list value) :
  existsb (targets source) cs = false -> map (retargeted source target) cs = cs.
Proof.
  induction cs as [|c cs IH]; simpl; auto.
  intros H. apply orb_false_elim in H. destruct H as [H1 H2].
  now rewrite retargeted_other, IH.
Qed.

(** ** One slot *)

Lemma retargetSlot_spec (source target : string) (h : value) (s : string) :
  nullish h = false ->
  exists h',
    retargetSlot source target h s = Ok h'
    /\ field h' s = retargeted source target (field h s)
    /\ (forall k, k <> s -> field h' k = field h k)
    /\ nullish h' = false
    /\ truthy h' = truthy h
    /\ (retargeted source target (field h s) = field h s -> h' = h).
Proof.
  intros Hn. unfold retargetSlot, retargeted.
  rewrite (get_prop_nonnullish _ _ Hn). cbn [bind].
  destruct (truthy (field h s) && targets source (field h s)) eqn:E.
  - apply andb_prop in E. destruct E as [Ht E].
    destruct (targets_set source target _ E) as (c' & Hs & _ & Ht' & Ho' & _).
    unfold withTarget. rewrite Hs. cbn [bind].
    assert (Hset : exists h', set_prop h s c' = Ok h'
                              /\ nullish h' = false /\ truthy h' = truthy h).
    { destruct (targets_holder _ _ E) as [[_ [ps Hc]]|[es [ps Hc]]];
        unfold field in Hc;
        destruct h as [| |b|z| |str|hes hps|hps]; simpl in *;
          try discriminate; try (destruct (s =? "length"); discriminate);
          eauto.
      - destruct (s =? "length"); [discriminate|]. eauto.
      - destruct (s =? "length"); [discriminate|]. eauto. }
    destruct Hset as (h' & Hh' & Hn' & Htr).
    exists h'. rewrite Hh'. pose proof (set_prop_field _ _ _ _ Hh') as [H1 H2].
    repeat split; auto.
    intros Heq. rewrite Heq in Hh', Ho'.
    rewrite set_prop_truthy_id in Hh'; congruence.
  - exists h. repeat split; auto.
Qed.

(** ** The elements of [rules], [scheduledPaths] and [waitEvents] *)

Lemma mapM_total {A B : Type} (f : A -> result B) (g : A -> B) (l : list A) :
  (forall a, In a l -> f a = Ok (g a)) -> mapM f l = Ok (map g l).
Proof.
  induction l as [|a l IH]; intros H; auto.
  cbn [mapM map]. rewrite H by (simpl; auto). cbn [bind].
  rewrite IH; auto. intros; apply H; simpl; auto.
Qed.

Lemma mapM_ok_all {A B : Type} (f : A -> result B) (l : list A)
    (l' : list B) :
  mapM f l = Ok l' -> forall a, In a l -> isOk (f a) = true.
Proof.
  revert l'. induction l as [|a l IH]; intros l' H x Hx; [destruct Hx|].
  cbn [mapM] in H.
  destruct (f a) as [b|] eqn:Ea; cbn [bind] in H; [|discriminate].
  destruct (mapM f l) as [bs|] eqn:El; cbn [bind] in H; [|discriminate].
  destruct Hx as [<-|Hx]; [now rewrite Ea|]. eapply IH; eauto.
Qed.

Section Retarget.

Variables source target : string.

Lemma retargetedIn_spec (x : value) :
  nullish x = false ->
  retargetSlot source target x "connector"
  = Ok (retargetedIn source target x)
  /\ field (retargetedIn source target x) "connector"
     = retargeted source target (field x "connector")
  /\ nullish (retargetedIn source target x) = false
  /\ (retargeted source target (field x "connector") = field x "connector" ->
      retargetedIn source target x = x).
Proof.
  intros Hn.
  destruct (retargetSlot_spec source target x "connector" Hn)
    as (x' & Hx & Hf & _ & Hn' & _ & Hfix).
  unfold retargetedIn. rewrite Hx. auto.
Qed.

Lemma retargetedIn_nullish (x : value) :
  nullish (retargetedIn source target x) = nullish x.
Proof.
  destruct (nullish x) eqn:Hn.
  - unfold retargetedIn. destruct x; simpl in *; try discriminate; auto.
  - now destruct (retargetedIn_spec x Hn) as (_ & _ & ? & _).
Qed.

Lemma setSlot_retargeted (h h' : value) (s : string) :
  field h' s = retargeted source target (field h s) ->
  setSlot h' s = map (retargeted source target) (setSlot h s).
Proof.
  intros H. unfold setSlot. rewrite H, retargeted_truthy.
  now destruct (truthy (field h s)).
Qed.

Lemma setSlot_retargetedIn (x : value) :
  setSlot (retargetedIn source target x) "connector"
  = map (retargeted source target) (setSlot x "connector").
Proof.
  destruct (nullish x) eqn:Hn.
  - unfold retargetedIn. destruct x; simpl in *; try discriminate; auto.
  - apply setSlot_retargeted.
    now destruct (retargetedIn_spec x Hn) as (_ & ? & _).
Qed.

Lemma retargetedIn_idempotent (x : value) :
  retargetedIn source target (retargetedIn source target x)
  = retargetedIn source target x.
Proof.
  destruct (nullish x) eqn:Hn.
  - unfold retargetedIn. destruct x; simpl in *; try discriminate; auto.
  - destruct (retargetedIn_spec x Hn) as (_ & Hf & Hn' & _).
    destruct (retargetedIn_spec _ Hn') as (_ & _ & _ & Hfix).
    apply Hfix. rewrite Hf. apply retargeted_idempotent.
Qed.

Lemma set_prop_array_field (o : value) (k : string) (x : value) :
  isArray (field o k) = true ->
  exists o', set_prop o k x = Ok o'
             /\ nullish o' = false /\ truthy o' = truthy o.
Proof.
  unfold field. destruct o as [| |b|z| |s|es ps|ps]; simpl; try discriminate;
    eauto.
  - destruct (k =? "length"); discriminate.
  - destruct (k =? "length"); [discriminate|]. eauto.
Qed.

Lemma retargetArray_spec (node : value) (s : string) :
  nullish node = false ->
  forallb (fun x => negb (nullish x)) (elements (field node s)) = true ->
  exists node',
    retargetArray source target node s = Ok node'
    /\ elements (field node' s)
       = map (retargetedIn source target) (elements (field node s))
    /\ (forall k, k <> s -> field node' k = field node k)
    /\ nullish node' = false
    /\ truthy node' = truthy node
    /\ ((forall x, In x (elements (field node s)) ->
                   retargetedIn source target x = x) -> node' = node).
Proof.
  intros Hn Hel. unfold retargetArray.
  rewrite (get_prop_nonnullish _ _ Hn). cbn [bind].
  destruct (field node s) as [| |b|z| |str|es own|ps] eqn:E;
    try (exists node; rewrite E; repeat split; auto; fail).
  cbn [elements] in *.
  rewrite (mapM_total _ (retargetedIn source target)).
  - cbn [bind].
    destruct (set_prop_array_field node s
                (VArr (map (retargetedIn source target) es) own))
      as (node' & Hs & Hn' & Ht); [now rewrite E|].
    exists node'. rewrite Hs.
    destruct (set_prop_field _ _ _ _ Hs) as [H1 H2].
    rewrite H1. repeat split; auto.
    intros Hfix. rewrite (map_ext_in _ id) in Hs.
    + rewrite map_id, <- E in Hs.
      rewrite set_prop_field_id in Hs; [congruence| now rewrite E].
    + intros x Hx. now apply Hfix.
  - intros x Hx. rewrite forallb_forall in Hel.
    apply retargetedIn_spec. apply negb_true_iff. auto.
Qed.

(** ** The two loops of [retargetConnectors] *)

Lemma retargetSlots_spec (slots : list string) (h : value) :
  NoDup slots -> nullish h = false ->
  exists h',
    forEach (retargetSlot source target) slots h = Ok h'
    /\ (forall s, In s slots ->
                  field h' s = retargeted source target (field h s))
    /\ (forall k, ~ In k slots -> field h' k = field h k)
    /\ nullish h' = false
    /\ truthy h' = truthy h
    /\ ((forall s, In s slots ->
                   retargeted source target (field h s) = field h s) ->
        h' = h).
Proof.
  revert h. induction slots as [|s slots IH]; intros h Hnd Hn.
  - exists h. repeat split; auto. intros s [].
  - inversion Hnd as [|? ? Hs Hnd']; subst.
    destruct (retargetSlot_spec source target h s Hn)
      as (h1 & E1 & Hf1 & Hframe1 & Hn1 & Ht1 & Hfix1).
    destruct (IH h1 Hnd' Hn1) as (h' & E & Hf & Hframe & Hn' & Ht' & Hfix).
    exists h'. cbn [forEach]. rewrite E1. cbn [bind]. rewrite E.
    split; [reflexivity|]. split; [|split; [|split; [|split]]]; auto.
    + intros k [<-|Hk].
      * rewrite Hframe by exact Hs. exact Hf1.
      * rewrite (Hf k Hk). f_equal. apply Hframe1. intros ->. tauto.
    + intros k Hk. simpl in Hk. rewrite Hframe by tauto.
      apply Hframe1. intros ->. tauto.
    + congruence.
    + intros Hall. assert (h1 = h) as -> by (apply Hfix1, Hall; simpl; auto).
      apply Hfix. intros k Hk. apply Hall. simpl; auto.
Qed.

Lemma retargetArrays_spec (slots : list string) (node : value) :
  NoDup slots -> nullish node = false ->
  (forall s, In s slots ->
     forallb (fun x => negb (nullish x)) (elements (field node s)) = true) ->
  exists node',
    forEach (retargetArray source target) slots node = Ok node'
    /\ (forall s, In s slots ->
          elements (field node' s)
          = map (retargetedIn source target) (elements (field node s)))
    /\ (forall k, ~ In k slots -> field node' k = field node k)
    /\ nullish node' = false
    /\ truthy node' = truthy node
    /\ ((forall s x, In s slots -> In x (elements (field node s)) ->
                     retargetedIn source target x = x) -> node' = node).
Proof.
  revert node. induction slots as [|s slots IH]; intros node Hnd Hn Hel.
  - exists node. repeat split; auto. intros s [].
  - inversion Hnd as [|? ? Hs Hnd']; subst.
    destruct (retargetArray_spec node s Hn (Hel s (or_introl eq_refl)))
      as (n1 & E1 & Hf1 & Hframe1 & Hn1 & Ht1 & Hfix1).
    assert (Hel1 : forall k, In k slots ->
              forallb (fun x => negb (nullish x)) (elements (field n1 k))
              = true).
    { intros k Hk. rewrite Hframe1 by (intros ->; tauto).
      apply Hel. simpl; auto. }
    destruct (IH n1 Hnd' Hn1 Hel1) as (n' & E & Hf & Hframe & Hn' & Ht' & Hfix).
    exists n'. cbn [forEach]. rewrite E1. cbn [bind]. rewrite E.
    split; [reflexivity|]. split; [|split; [|split; [|split]]]; auto.
    + intros k [<-|Hk].
      * rewrite Hframe by exact Hs. exact Hf1.
      * rewrite (Hf k Hk). do 2 f_equal. apply Hframe1. intros ->. tauto.
    + intros k Hk. simpl in Hk. rewrite Hframe by tauto.
      apply Hframe1. intros ->. tauto.
    + congruence.
    + intros Hall.
      assert (n1 = node) as ->.
      { apply Hfix1. intros x Hx. apply (Hall s); simpl; auto. }
      apply Hfix. intros k x Hk Hx. apply (Hall k); simpl; auto.
Qed.

End Retarget.

(** ** [getConnectors] on a readable node *)

Lemma connectorsOf_total (node : value) (s : string) :
  nullish node = false ->
  forallb (fun x => negb (nullish x)) (elements (field node s)) = true ->
  connectorsOf node s
  = Ok (map (fun x => field x "connector") (elements (field node s))).
Proof.
  intros Hn Hel. unfold connectorsOf.
  rewrite (get_prop_nonnullish _ _ Hn). cbn [bind].
  destruct (isArray (field node s)) eqn:Ea.
  - apply mapM_total. intros x Hx. rewrite forallb_forall in Hel.
    apply get_prop_nonnullish. apply negb_true_iff. auto.
  - destruct (field node s); try discriminate; reflexivity.
Qed.

Lemma connectorsOf_ok (node : value) (s : string) (cs : list value) :
  connectorsOf node s = Ok cs ->
  forallb (fun x => negb (nullish x)) (elements (field node s)) = true.
Proof.
  unfold connectorsOf. intros H.
  destruct (get_prop node s) as [xs|] eqn:E; cbn [bind] in H; [|discriminate].
  rewrite (get_prop_ok_field _ _ _ E).
  destruct (isArray xs) eqn:Ea.
  - apply forallb_forall. intros x Hx.
    pose proof (mapM_ok_all _ _ _ H x Hx) as Hok.
    destruct x; simpl in *; auto; discriminate.
  - destruct xs; try discriminate; reflexivity.
Qed.

Lemma getConnectors_readable (node : value) :
  readable node = true -> getConnectors node = Ok (allConnectors node).
Proof.
  unfold readable. intros H. apply andb_prop in H. destruct H as [Hn Hel].
  apply negb_true_iff in Hn. rewrite forallb_forall in Hel.
  assert (H : exists cs, getConnectors node = Ok cs).
  { unfold getConnectors.
    rewrite !(get_prop_nonnullish _ _ Hn). cbn [bind].
    rewrite !connectorsOf_total by (auto; apply Hel; simpl; auto).
    cbn [bind]. eauto. }
  destruct H as [cs H]. rewrite H. f_equal. now apply getConnectors_layout.
Qed.

Lemma getConnectors_ok_readable (node : value) (cs : list value) :
  getConnectors node = Ok cs -> readable node = true.
Proof.
  unfold getConnectors, readable. intros H.
  destruct (get_prop node "connector") as [c1|] eqn:E1; cbn [bind] in H;
    [|discriminate].
  destruct (get_prop node "defaultConnector") as [c2|]; cbn [bind] in H;
    [|discriminate].
  destruct (get_prop node "nextValueConnector") as [c3|]; cbn [bind] in H;
    [|discriminate].
  destruct (get_prop node "noMoreValuesConnector") as [c4|]; cbn [bind] in H;
    [|discriminate].
  destruct (get_prop node "faultConnector") as [c5|]; cbn [bind] in H;
    [|discriminate].
  destruct (connectorsOf node "rules") as [rs|] eqn:Er; cbn [bind] in H;
    [|discriminate].
  destruct (connectorsOf node "scheduledPaths") as [ps|] eqn:Ep;
    cbn [bind] in H; [|discriminate].
  destruct (connectorsOf node "waitEvents") as [ws|] eqn:Ew;
    cbn [bind] in H; [|discriminate].
  apply andb_true_intro. split.
  - destruct node; simpl in *; auto; discriminate.
  - cbn [forallb connectorArrays].
    rewrite (connectorsOf_ok _ _ _ Er), (connectorsOf_ok _ _ _ Ep),
      (connectorsOf_ok _ _ _ Ew). reflexivity.
Qed.

(** ** One parent *)

Section Parent.

Variables source target : string.

Lemma setIn_retargeted (node node' : value) (s : string) :
  elements (field node' s)
  = map (retargetedIn source target) (elements (field node s)) ->
  setIn node' s = map (retargeted source target) (setIn node s).
Proof.
  unfold setIn. intros ->.
  induction (elements (field node s)) as [|x xs IH]; auto.
  cbn [map flat_map]. rewrite map_app, IH.
  now rewrite setSlot_retargetedIn.
Qed.

Lemma connector_names_distinct :
  NoDup connectorSlots /\ NoDup connectorArrays
  /\ (forall s, In s connectorSlots -> ~ In s connectorArrays).
Proof.
  split; [|split].
  - repeat constructor; simpl; intuition discriminate.
  - repeat constructor; simpl; intuition discriminate.
  - simpl. intros s H1 H2. intuition (subst; discriminate).
Qed.

Lemma retargetConnectors_spec (node : value) :
  readable node = true ->
  exists node',
    retargetConnectors source target node = Ok node'
    /\ allConnectors node'
       = map (retargeted source target) (allConnectors node)
    /\ readable node' = true
    /\ truthy node' = truthy node
    /\ settled source target node'
    /\ (settled source target node -> node' = node).
Proof.
  intros Hr. pose proof Hr as Hr0. unfold readable in Hr.
  apply andb_prop in Hr. destruct Hr as [Hn Hel].
  apply negb_true_iff in Hn. rewrite forallb_forall in Hel.
  destruct connector_names_distinct as (Hnd1 & Hnd2 & Hdisj).
  destruct (retargetSlots_spec source target connectorSlots node Hnd1 Hn)
    as (h1 & E1 & Hf1 & Hframe1 & Hn1 & Ht1 & Hfix1).
  assert (Hel1 : forall s, In s connectorArrays ->
            forallb (fun x => negb (nullish x)) (elements (field h1 s))
            = true).
  { intros s Hs. rewrite Hframe1; auto. intros Hin.
    exact (Hdisj s Hin Hs). }
  destruct (retargetArrays_spec source target connectorArrays h1 Hnd2 Hn1
              Hel1) as (n' & E2 & Hf2 & Hframe2 & Hn2 & Ht2 & Hfix2).
  assert (Hslot : forall s, In s connectorSlots ->
            field n' s = retargeted source target (field node s)).
  { intros s Hs. rewrite Hframe2 by (apply Hdisj; exact Hs). auto. }
  assert (Harr : forall s, In s connectorArrays ->
            elements (field n' s)
            = map (retargetedIn source target) (elements (field node s))).
  { intros s Hs. rewrite (Hf2 s Hs). do 2 f_equal. apply Hframe1.
    intros Hin. exact (Hdisj s Hin Hs). }
  exists n'. unfold retargetConnectors. rewrite E1. cbn [bind].
  split; [exact E2|]. split; [|split; [|split; [|split]]].
  - unfold allConnectors. rewrite !map_app.
    rewrite !(setSlot_retargeted source target node n')
      by (apply Hslot; simpl; auto 10).
    rewrite !(setIn_retargeted node n') by (apply Harr; simpl; auto).
    reflexivity.
  - unfold readable. rewrite Hn2. cbn [negb andb].
    apply forallb_forall. intros s Hs. rewrite (Harr s Hs).
    apply forallb_forall. intros x Hx. apply in_map_iff in Hx.
    destruct Hx as [y [<- Hy]]. rewrite retargetedIn_nullish.
    specialize (Hel s Hs). rewrite forallb_forall in Hel. auto.
  - congruence.
  - split.
    + intros s Hs. rewrite (Hslot s Hs). apply retargeted_idempotent.
    + intros s x Hs Hx. rewrite (Harr s Hs) in Hx. apply in_map_iff in Hx.
      destruct Hx as [y [<- Hy]]. apply retargetedIn_idempotent.
  - intros [Hs1 Hs2]. assert (h1 = node) as -> by auto. auto.
Qed.

Lemma isParentOf_readable (node : value) :
  readable node = true ->
  isParentOf source node
  = Ok (existsb (targets source) (allConnectors node)).
Proof.
  intros Hr. unfold isParentOf. now rewrite (getConnectors_readable _ Hr).
Qed.

Lemma visited_falsy (node : value) :
  truthy node = false ->
  reparentVisit source target node = Ok node
  /\ visited source target node = node.
Proof.
  intros H. unfold visited, reparentVisit. now rewrite H.
Qed.

Lemma visited_readable (node : value) :
  truthy node = true -> readable node = true ->
  reparentVisit source target node = Ok (visited source target node)
  /\ readable (visited source target node) = true
  /\ allConnectors (visited source target node)
     = map (retargeted source target) (allConnectors node)
  /\ truthy (visited source target node) = true
  /\ (existsb (targets source) (allConnectors node) = false ->
      visited source target node = node)
  /\ reparentVisit source target (visited source target node)
     = Ok (visited source target node).
Proof.
  intros Ht Hr.
  assert (Hstep : reparentVisit source target node
                  = if existsb (targets source) (allConnectors node)
                    then retargetConnectors source target node
                    else Ok node).
  { unfold reparentVisit. rewrite Ht, (isParentOf_readable _ Hr).
    reflexivity. }
  destruct (existsb (targets source) (allConnectors node)) eqn:Ep.
  - destruct (retargetConnectors_spec node Hr)
      as (n' & E & Hc & Hr' & Ht' & Hset & _).
    rewrite E in Hstep. rewrite Ht in Ht'.
    assert (Hvis : visited source target node = n')
      by (unfold visited; now rewrite Hstep).
    rewrite Hvis.
    split; [exact Hstep|]. split; [exact Hr'|]. split; [exact Hc|].
    split; [exact Ht'|]. split; [discriminate|].
    unfold reparentVisit. rewrite Ht', (isParentOf_readable _ Hr').
    cbn [bind].
    destruct (existsb (targets source) (allConnectors n')); auto.
    destruct (retargetConnectors_spec n' Hr')
      as (n'' & E' & _ & _ & _ & _ & Hfix).
    rewrite E'. f_equal. auto.
  - assert (Hvis : visited source target node = node)
      by (unfold visited; now rewrite Hstep).
    rewrite Hvis. repeat split; auto.
    symmetry. now apply map_retargeted_id.
Qed.

Lemma visited_truthy (node : value) :
  truthy (visited source target node) = truthy node.
Proof.
  destruct (truthy node) eqn:Ht.
  - unfold visited, reparentVisit. rewrite Ht.
    unfold isParentOf.
    destruct (getConnectors node) as [cs|] eqn:Ec; cbn [bind]; auto.
    destruct (existsb (targets source) cs); auto.
    apply getConnectors_ok_readable in Ec.
    destruct (retargetConnectors_spec node Ec) as (n' & E & _ & _ & Ht' & _).
    rewrite E. congruence.
  - now rewrite (proj2 (visited_falsy node Ht)).
Qed.

(** What the visit does to any node [getConnectors] can read. *)
Lemma visited_node (node : value) :
  (truthy node = true -> readable node = true) ->
  reparentVisit source target node = Ok (visited source target node)
  /\ reparentVisit source target (visited source target node)
     = Ok (visited source target node).
Proof.
  intros H. destruct (truthy node) eqn:Ht.
  - destruct (visited_readable node Ht (H eq_refl)) as (? & _ & _ & _ & _ & ?).
    auto.
  - destruct (visited_falsy node Ht) as [H1 H2]. now rewrite H2.
Qed.

End Parent.

(** ** The document *)

Lemma collect_nodes (flow : value) (props : list string) (acc : list value) :
  nullish flow = false ->
  forEach
    (fun nodes prop =>
       nodeArray <- get_prop flow prop ;;
       if truthy nodeArray && isArray nodeArray
       then Ok (nodes ++ elements nodeArray)
       else Ok nodes)
    props acc
  = Ok (acc ++ flat_map (fun p => elements (field flow p)) props).
Proof.
  intros Hn. revert acc. induction props as [|p props IH]; intros acc.
  - simpl. now rewrite app_nil_r.
  - cbn [forEach flat_map]. rewrite (get_prop_nonnullish _ _ Hn).
    cbn [bind].
    destruct (truthy (field flow p) && isArray (field flow p)) eqn:E;
      cbn [bind]; rewrite IH.
    + now rewrite app_assoc.
    + destruct (field flow p); simpl in E; try discriminate;
        simpl; reflexivity.
Qed.

Lemma getFlowNodes_spec (flow : value) :
  nullish flow = false -> getFlowNodes flow = Ok (allNodes flow).
Proof.
  intros Hn. unfold getFlowNodes, allNodes.
  rewrite (get_prop_nonnullish _ _ Hn). cbn [bind].
  rewrite (collect_nodes _ _ _ Hn). reflexivity.
Qed.

Lemma getFlowNodes_ok (flow : value) (ns : list value) :
  getFlowNodes flow = Ok ns -> nullish flow = false.
Proof.
  unfold getFlowNodes. destruct flow; simpl; auto; discriminate.
Qed.

Lemma filterM_ok_all {A : Type} (f : A -> result bool) (l l' : list A) :
  filterM f l = Ok l' -> forall a, In a l -> isOk (f a) = true.
Proof.
  revert l'. induction l as [|a l IH]; intros l' H x Hx; [destruct Hx|].
  cbn [filterM] in H.
  destruct (f a) as [b|] eqn:Ea; cbn [bind] in H; [|discriminate].
  destruct (filterM f l) as [bs|] eqn:El; cbn [bind] in H; [|discriminate].
  destruct Hx as [<-|Hx]; [now rewrite Ea|]. eapply IH; eauto.
Qed.

Lemma filterM_total {A : Type} (f : A -> result bool) (l : list A) :
  (forall a, In a l -> isOk (f a) = true) -> isOk (filterM f l) = true.
Proof.
  induction l as [|a l IH]; intros H; auto.
  cbn [filterM]. pose proof (H a (or_introl eq_refl)) as Ha.
  destruct (f a) as [b|]; [|discriminate]. cbn [bind].
  assert (Hl : isOk (filterM f l) = true)
    by (apply IH; intros; apply H; simpl; auto).
  destruct (filterM f l); [|discriminate]. reflexivity.
Qed.

Lemma isParentOf_ok_readable (source : string) (node : value) :
  isOk (isParentOf source node) = true -> readable node = true.
Proof.
  unfold isParentOf. destruct (getConnectors node) as [cs|] eqn:E;
    [|discriminate].
  intros _. eapply getConnectors_ok_readable; eauto.
Qed.

Lemma set_prop_truthy_field (o : value) (k : string) (x : value) :
  truthy (field o k) = true -> (k =? "length") = false ->
  exists o', set_prop o k x = Ok o' /\ nullish o' = false.
Proof.
  unfold field. intros Ht Hk.
  destruct o as [| |b|z| |s|es ps|ps]; simpl in *; try discriminate;
    rewrite ?Hk in *; try discriminate; eauto.
Qed.

Lemma set_prop_id_truthy (o : value) (k : string) :
  truthy (field o k) = true -> (k =? "length") = false ->
  set_prop o k (field o k) = Ok o.
Proof.
  unfold field. intros Ht Hk.
  destruct o as [| |b|z| |s|es ps|ps]; simpl in *; try discriminate;
    rewrite ?Hk in *; try discriminate.
  - rewrite update_lookup_id; auto. apply lookup_defined_in.
    intros E. now rewrite E in Ht.
  - rewrite update_lookup_id; auto. apply lookup_defined_in.
    intros E. now rewrite E in Ht.
Qed.

Lemma filter_truthy_map (f : value -> value) (l : list value) :
  (forall x, truthy (f x) = truthy x) ->
  filter truthy (map f l) = map f (filter truthy l).
Proof.
  intros H. induction l as [|x l IH]; auto.
  cbn [map filter]. rewrite H. destruct (truthy x); cbn [map]; now rewrite IH.
Qed.

Lemma flat_map_map_elements (f : value -> value) (g g' : string -> list value)
    (props : list string) :
  (forall p, In p props -> g' p = map f (g p)) ->
  flat_map g' props = map f (flat_map g props).
Proof.
  induction props as [|p props IH]; intros H; auto.
  cbn [flat_map]. rewrite map_app, H, IH; auto.
  - intros; apply H; simpl; auto.
  - simpl; auto.
Qed.

Lemma in_allNodes (flow : value) (n : value) :
  In n (allNodes flow) <->
  truthy n = true
  /\ (n = field flow "start"
      \/ exists p, In p FLOW_ARRAY_NODES /\ In n (elements (field flow p))).
Proof.
  unfold allNodes. rewrite filter_In. cbn [In]. rewrite in_flat_map.
  split; intros [H1 H2]; split; auto.
  - destruct H1 as [<-|H1]; auto.
  - destruct H2 as [->|H2]; auto.
Qed.

Section Document.

Variables source target : string.

Lemma reparentArrays_spec (props : list string) (fl : value) :
  NoDup props -> nullish fl = false ->
  (forall p n, In p props -> In n (elements (field fl p)) ->
               truthy n = true -> readable n = true) ->
  exists fl',
    forEach
      (fun fl prop =>
         nodeArray <- get_prop fl prop ;;
         match nodeArray with
         | VArr es own =>
             es' <- mapM (reparentVisit source target) es ;;
             set_prop fl prop (VArr es' own)
         | _ => Ok fl
         end)
      props fl = Ok fl'
    /\ (forall p, In p props ->
          elements (field fl' p)
          = map (visited source target) (elements (field fl p)))
    /\ (forall k, ~ In k props -> field fl' k = field fl k)
    /\ nullish fl' = false
    /\ ((forall p n, In p props -> In n (elements (field fl p)) ->
                     visited source target n = n) -> fl' = fl).
Proof.
  revert fl. induction props as [|p props IH]; intros fl Hnd Hn Hr.
  - exists fl. repeat split; auto. intros p [].
  - inversion Hnd as [|? ? Hp Hnd']; subst.
    assert (Hstep : exists f1,
              (nodeArray <- get_prop fl p ;;
               match nodeArray with
               | VArr es own =>
                   es' <- mapM (reparentVisit source target) es ;;
                   set_prop fl p (VArr es' own)
               | _ => Ok fl
               end) = Ok f1
              /\ elements (field f1 p)
                 = map (visited source target) (elements (field fl p))
              /\ (forall k, k <> p -> field f1 k = field fl k)
              /\ nullish f1 = false
              /\ ((forall n, In n (elements (field fl p)) ->
                             visited source target n = n) -> f1 = fl)).
    { rewrite (get_prop_nonnullish _ _ Hn). cbn [bind].
      destruct (field fl p) as [| |b|z| |s|es own|ps] eqn:E;
        try (exists fl; rewrite E; repeat split; auto; fail).
      cbn [elements].
      rewrite (mapM_total _ (visited source target)).
      - cbn [bind].
        destruct (set_prop_array_field fl p
                    (VArr (map (visited source target) es) own))
          as (f1 & Hs & Hn1 & _); [now rewrite E|].
        exists f1. destruct (set_prop_field _ _ _ _ Hs) as [H1 H2].
        rewrite H1. repeat split; auto.
        intros Hfix. rewrite (map_ext_in _ id) in Hs.
        + rewrite map_id, <- E in Hs.
          rewrite set_prop_field_id in Hs; [congruence|now rewrite E].
        + intros x Hx. now apply Hfix.
      - intros n Hin. apply visited_node. intros Ht.
        apply (Hr p n); simpl; auto. now rewrite E. }
    destruct Hstep as (f1 & E1 & Hf1 & Hframe1 & Hn1 & Hfix1).
    assert (Hr1 : forall q n, In q props -> In n (elements (field f1 q)) ->
                              truthy n = true -> readable n = true).
    { intros q n Hq Hin. rewrite Hframe1 in Hin by (intros ->; tauto).
      apply (Hr q n); simpl; auto. }
    destruct (IH f1 Hnd' Hn1 Hr1) as (fl' & E & Hf & Hframe & Hn' & Hfix).
    exists fl'. cbn [forEach]. rewrite E1. cbn [bind].
    split; [exact E|]. split; [|split; [|split]]; auto.
    + intros q [<-|Hq].
      * rewrite Hframe by exact Hp. exact Hf1.
      * rewrite (Hf q Hq). do 2 f_equal. apply Hframe1. intros ->. tauto.
    + intros k Hk. simpl in Hk. rewrite Hframe by tauto.
      apply Hframe1. intros ->. tauto.
    + intros Hall.
      assert (f1 = fl) as ->.
      { apply Hfix1. intros n Hin. apply (Hall p); simpl; auto. }
      apply Hfix. intros q n Hq Hin. apply (Hall q); simpl; auto.
Qed.

Lemma node_names_distinct :
  NoDup FLOW_ARRAY_NODES /\ ~ In "start" FLOW_ARRAY_NODES
  /\ forallb (fun p => negb (p =? "length")) ("start" :: FLOW_ARRAY_NODES)
     = true.
Proof.
  split; [|split].
  - repeat constructor; simpl; intuition discriminate.
  - simpl. intuition discriminate.
  - reflexivity.
Qed.

(** [reparentNode] on a document whose nodes [getConnectors] can read:
    it visits every node where it lives and touches nothing else. *)
Lemma reparentNode_total (flow : value) :
  nullish flow = false ->
  (forall n, In n (allNodes flow) -> readable n = true) ->
  exists flow',
    reparentNode flow source target = Ok flow'
    /\ field flow' "start" = visited source target (field flow "start")
    /\ (forall p, In p FLOW_ARRAY_NODES ->
          elements (field flow' p)
          = map (visited source target) (elements (field flow p)))
    /\ (forall k, k <> "start" -> ~ In k FLOW_ARRAY_NODES ->
                  field flow' k = field flow k)
    /\ nullish flow' = false
    /\ ((forall n, In n (allNodes flow) -> visited source target n = n) ->
        flow' = flow).
Proof.
  intros Hn Hr.
  destruct node_names_distinct as (Hnd & Hstart & _).
  unfold reparentNode, findParentFlowNodes.
  rewrite (getFlowNodes_spec _ Hn). cbn [bind].
  assert (Hf : isOk (filterM (isParentOf source) (allNodes flow)) = true).
  { apply filterM_total. intros n Hin.
    rewrite (isParentOf_readable source n (Hr n Hin)). reflexivity. }
  destruct (filterM (isParentOf source) (allNodes flow)) as [ps|];
    [|discriminate].
  cbn [bind]. rewrite (get_prop_nonnullish _ _ Hn). cbn [bind].
  assert (Hs : exists flow1,
            (if truthy (field flow "start")
             then start' <- reparentVisit source target (field flow "start") ;;
                  set_prop flow "start" start'
             else Ok flow) = Ok flow1
            /\ field flow1 "start"
               = visited source target (field flow "start")
            /\ (forall k, k <> "start" -> field flow1 k = field flow k)
            /\ nullish flow1 = false
            /\ (visited source target (field flow "start")
                = field flow "start" -> flow1 = flow)).
  { destruct (truthy (field flow "start")) eqn:Et.
    - assert (Hrs : readable (field flow "start") = true).
      { apply Hr. apply in_allNodes. auto. }
      destruct (visited_readable source target _ Et Hrs) as (Hv & _).
      rewrite Hv. cbn [bind].
      destruct (set_prop_truthy_field flow "start"
                  (visited source target (field flow "start")) Et eq_refl)
        as (flow1 & Hs & Hn1).
      exists flow1. destruct (set_prop_field _ _ _ _ Hs) as [H1 H2].
      repeat split; auto.
      intros Hfix. rewrite Hfix in Hs.
      rewrite set_prop_id_truthy in Hs; auto. congruence.
    - exists flow. destruct (visited_falsy source target _ Et) as [_ Hv].
      rewrite Hv. repeat split; auto. }
  destruct Hs as (flow1 & Es & Hs1 & Hframe1 & Hn1 & Hfix1).
  rewrite Es. cbn [bind].
  assert (Hr1 : forall p n, In p FLOW_ARRAY_NODES ->
                  In n (elements (field flow1 p)) ->
                  truthy n = true -> readable n = true).
  { intros p n Hp Hin Ht. rewrite Hframe1 in Hin by (intros ->; tauto).
    apply Hr. apply in_allNodes. eauto. }
  destruct (reparentArrays_spec FLOW_ARRAY_NODES flow1 Hnd Hn1 Hr1)
    as (flow' & E & Hf' & Hframe' & Hn' & Hfix').
  exists flow'. split; [exact E|]. split; [|split; [|split; [|split]]]; auto.
  - rewrite Hframe' by exact Hstart. exact Hs1.
  - intros p Hp. rewrite (Hf' p Hp). do 2 f_equal. apply Hframe1.
    intros ->. tauto.
  - intros k Hk1 Hk2. rewrite Hframe' by exact Hk2. now apply Hframe1.
  - intros Hall.
    assert (Hvs : visited source target (field flow "start")
                  = field flow "start").
    { destruct (truthy (field flow "start")) eqn:Et.
      - apply Hall. apply in_allNodes. auto.
      - now destruct (visited_falsy source target _ Et). }
    assert (flow1 = flow) as -> by auto.
    apply Hfix'. intros p n Hp Hin.
    destruct (truthy n) eqn:Et.
    + apply Hall. apply in_allNodes. eauto.
    + now destruct (visited_falsy source target _ Et).
Qed.

Lemma reparentNode_ok_readable (flow flow' : value) :
  reparentNode flow source target = Ok flow' ->
  nullish flow = false
  /\ (forall n, In n (allNodes flow) -> readable n = true).
Proof.
  unfold reparentNode, findParentFlowNodes. intros H.
  destruct (getFlowNodes flow) as [ns|] eqn:En; cbn [bind] in H;
    [|discriminate].
  pose proof (getFlowNodes_ok _ _ En) as Hn.
  rewrite (getFlowNodes_spec _ Hn) in En. injection En as <-.
  destruct (filterM (isParentOf source) (allNodes flow)) as [ps|] eqn:Ef;
    cbn [bind] in H; [|discriminate].
  split; auto. intros n Hin.
  apply (isParentOf_ok_readable source).
  eapply filterM_ok_all; eauto.
Qed.

Lemma allNodes_visited (flow flow' : value) :
  field flow' "start" = visited source target (field flow "start") ->
  (forall p, In p FLOW_ARRAY_NODES ->
     elements (field flow' p)
     = map (visited source target) (elements (field flow p))) ->
  allNodes flow' = map (visited source target) (allNodes flow).
Proof.
  intros Hs Hp. unfold allNodes.
  rewrite <- filter_truthy_map by apply visited_truthy.
  cbn [map]. rewrite Hs. do 2 f_equal.
  now apply flat_map_map_elements.
Qed.

End Document.

Lemma Forall2_map_right {A B : Type} (P : A -> B -> Prop) (f : A -> B)
    (l : list A) :
  (forall a, In a l -> P a (f a)) -> Forall2 P l (map f l).
Proof.
  induction l as [|a l IH]; intros H; simpl; constructor.
  - apply H; simpl; auto.
  - apply IH. intros; apply H; simpl; auto.
Qed.

(** C7, as the code has it.  After [reparentNode(doc, source, target)] the
    document has the same nodes in the same places, and for each of them
    [getConnectors] returns the connectors it returned before, each one
    retargeted: a connector whose [targetReference] was [source] now has
    [target], any other connector is unchanged.  A node none of whose
    connectors led to [source] is unchanged as a whole, and so is every
    field of the document that is neither the start node nor a node
    collection.  A second identical call changes nothing.  The node named
    [source] is therefore unchanged unless one of its own connectors leads
    to [source]. *)
Theorem reparentNode_rewires (flow flow' : value) (source target : string) :
  reparentNode flow source target = Ok flow' ->
  exists nodes nodes',
    getFlowNodes flow = Ok nodes
    /\ getFlowNodes flow' = Ok nodes'
    /\ Forall2
         (fun n n' =>
            exists cs,
              getConnectors n = Ok cs
              /\ getConnectors n' = Ok (map (retargeted source target) cs)
              /\ (existsb (targets source) cs = false -> n' = n))
         nodes nodes'
    /\ (forall c, truthy c = true -> targets source c = true ->
                  targets target (retargeted source target c) = true)
    /\ (forall c, targets source c = false ->
                  retargeted source target c = c)
    /\ (forall k, k <> "start" -> ~ In k FLOW_ARRAY_NODES ->
                  field flow' k = field flow k)
    /\ reparentNode flow' source target = Ok flow'.
Proof.
  intros H.
  destruct (reparentNode_ok_readable source target flow flow' H) as [Hn Hr].
  destruct (reparentNode_total source target flow Hn Hr)
    as (f' & E & Hs & Hp & Hframe & Hn' & _).
  assert (f' = flow') as -> by congruence.
  pose proof (allNodes_visited source target flow flow' Hs Hp) as Hnodes.
  exists (allNodes flow), (allNodes flow').
  split; [now apply getFlowNodes_spec|].
  split; [now apply getFlowNodes_spec|].
  split; [|split; [|split; [|split]]].
  - rewrite Hnodes. apply Forall2_map_right. intros n Hin.
    pose proof (Hr n Hin) as Hrn.
    apply in_allNodes in Hin. destruct Hin as [Ht _].
    destruct (visited_readable source target n Ht Hrn)
      as (_ & Hr' & Hc & _ & Hfix & _).
    exists (allConnectors n). split; [now apply getConnectors_readable|].
    split; [|exact Hfix].
    rewrite <- Hc. now apply getConnectors_readable.
  - apply retargeted_targets.
  - apply retargeted_other.
  - exact Hframe.
  - assert (Hr' : forall n, In n (allNodes flow') -> readable n = true).
    { intros n' Hin. rewrite Hnodes in Hin. apply in_map_iff in Hin.
      destruct Hin as [n [<- Hin]]. pose proof (Hr n Hin) as Hrn.
      apply in_allNodes in Hin. destruct Hin as [Ht _].
      now destruct (visited_readable source target n Ht Hrn) as (_ & ? & _). }
    destruct (reparentNode_total source target flow' Hn' Hr')
      as (f2 & E2 & _ & _ & _ & _ & Hfix).
    rewrite E2. f_equal. apply Hfix.
    intros n' Hin. rewrite Hnodes in Hin. apply in_map_iff in Hin.
    destruct Hin as [n [<- Hin]]. pose proof (Hr n Hin) as Hrn.
    apply in_allNodes in Hin. destruct Hin as [Ht _].
    destruct (visited_readable source target n Ht Hrn)
      as (_ & _ & _ & _ & _ & Hv).
    unfold visited at 1. now rewrite Hv.
Qed.

Lemma reparentNode_rewires_witness :
  reparentNode sampleFlow "A" "X" = Ok sampleFlowAfter
  /\ exists nodes nodes',
       getFlowNodes sampleFlow = Ok nodes
       /\ getFlowNodes sampleFlowAfter = Ok nodes'
       /\ Forall2
            (fun n n' =>
               exists cs,
                 getConnectors n = Ok cs
                 /\ getConnectors n' = Ok (map (retargeted "A" "X") cs)
                 /\ (existsb (targets "A") cs = false -> n' = n))
            nodes nodes'
       /\ (forall c, truthy c = true -> targets "A" c = true ->
                     targets "X" (retargeted "A" "X" c) = true)
       /\ (forall c, targets "A" c = false -> retargeted "A" "X" c = c)
       /\ (forall k, k <> "start" -> ~ In k FLOW_ARRAY_NODES ->
                     field sampleFlowAfter k = field sampleFlow k)
       /\ reparentNode sampleFlowAfter "A" "X" = Ok sampleFlowAfter.
Proof.
  split; [reflexivity|].
  apply (reparentNode_rewires sampleFlow sampleFlowAfter "A" "X").
  reflexivity.
Defined.

(** C7, as the claim words it, fails on a node connected to itself:
    [reparentNode(selfLoop, "A", "B")] rewrites the connector of the node
    named ["A"], so that node is not what it was. *)
Lemma reparentNode_changes_source_node :
  reparentNode selfLoop "A" "B" = Ok selfLoopAfter
  /\ findFlowNodeByName selfLoop "A"
     = Ok (obj [("name", VStr "A"); ("connector", connector "A")])
  /\ findFlowNodeByName selfLoopAfter "A"
     = Ok (obj [("name", VStr "A"); ("connector", connector "B")])
  /\ findFlowNodeByName selfLoopAfter "A" <> findFlowNodeByName selfLoop "A".
Proof.
  repeat split. discriminate.
Qed.

(* ================================================================== *)
(** * [parse]                                                          *)
(* ================================================================== *)


